(** * The search-and-highlight engine of the document platform

    A shallow embedding of the client-side search service
    ([searchService]: [splitIntoSentences], [matchByType],
    [computeMatchInfo], [highlightAll], [highlightRanges],
    [highlightByType], [searchDocuments]) and the properties of it that the
    specification states.

    JavaScript strings are sequences of UTF-16 code units; they are modelled
    as [list Z].  Offsets are JavaScript numbers that stay integral here and
    may go negative, so they are [Z].  What the JavaScript host supplies and
    the source does not contain (the Unicode tables behind [toLowerCase],
    [\p{L}], [\p{N}], [\p{P}] and the case folding of [/iu], the double
    arithmetic of [Math.round] and [Math.ceil]) is a [Host] record; the fuzzy
    ranking library is a function parameter of [searchDocuments]. *)

From Stdlib Require Import ZArith Lia String Ascii Permutation.
From Equations Require Import Equations.
From stdpp Require Import base list numbers.

Open Scope Z_scope.

(** ** JavaScript strings *)

Abbreviation JSString := (list Z).

(** A string literal of the source, for text in the Basic Latin block. *)
Definition js (s : string) : JSString :=
  (fun a => Z.of_N (N_of_ascii a)) <$> list_ascii_of_string s.

(** [s.length] as a JavaScript number. *)
Definition len (s : JSString) : Z := Z.of_nat (length s).

(** A string is falsy exactly when it is empty ([!s]). *)
Definition falsy (s : JSString) : bool :=
  match s with [] => true | _ :: _ => false end.

(** [WhiteSpace] and [LineTerminator] of ECMAScript: what [trim] strips and
    what [\s] matches. *)
Definition isWhiteSpace (c : Z) : bool :=
  ((9 <=? c) && (c <=? 13)) || (c =? 32) || (c =? 160) || (c =? 0x1680)
  || ((0x2000 <=? c) && (c <=? 0x200A)) || (c =? 0x2028) || (c =? 0x2029)
  || (c =? 0x202F) || (c =? 0x205F) || (c =? 0x3000) || (c =? 0xFEFF).

Fixpoint dropWhile {A} (p : A -> bool) (l : list A) : list A :=
  match l with
  | [] => []
  | x :: l' => if p x then dropWhile p l' else l
  end.

Fixpoint takeWhile {A} (p : A -> bool) (l : list A) : list A :=
  match l with
  | [] => []
  | x :: l' => if p x then x :: takeWhile p l' else []
  end.

Definition dropWhileEnd {A} (p : A -> bool) (l : list A) : list A :=
  reverse (dropWhile p (reverse l)).

(** [String.prototype.trim]. *)
Definition trim (s : JSString) : JSString :=
  dropWhileEnd isWhiteSpace (dropWhile isWhiteSpace s).

(** [String.prototype.startsWith], [endsWith], [indexOf], [includes]. *)
Fixpoint startsWith (s n : JSString) {struct n} : bool :=
  match n, s with
  | [], _ => true
  | _ :: _, [] => false
  | y :: n', x :: s' => (x =? y) && startsWith s' n'
  end.

Definition endsWith (s n : JSString) : bool :=
  startsWith (reverse s) (reverse n).

Fixpoint indexOfFrom (n : JSString) (pos : Z) (s : JSString) : Z :=
  if startsWith s n then pos
  else match s with
       | [] => -1
       | _ :: s' => indexOfFrom n (pos + 1) s'
       end.

Definition indexOf (s n : JSString) : Z := indexOfFrom n 0 s.

Definition includes (s n : JSString) : bool := 0 <=? indexOf s n.

(** [String.prototype.slice]: a negative index counts from the end, indices
    are clamped to the string, and an inverted range is empty. *)
Definition slice (s : JSString) (from to : Z) : JSString :=
  let a := if from <? 0 then Z.max (len s + from) 0 else Z.min from (len s) in
  let b := if to <? 0 then Z.max (len s + to) 0 else Z.min to (len s) in
  take (Z.to_nat (b - a)) (drop (Z.to_nat a) s).

Definition sliceFrom (s : JSString) (from : Z) : JSString :=
  slice s from (len s).

(** ** Code points

    The regular expressions compiled with the [u] flag read the string by
    code point: a high surrogate followed by a low surrogate is one
    character, any other code unit stands for itself. *)

Definition isHighSurrogate (u : Z) : bool := (0xD800 <=? u) && (u <=? 0xDBFF).
Definition isLowSurrogate (u : Z) : bool := (0xDC00 <=? u) && (u <=? 0xDFFF).

Definition pairValue (hi lo : Z) : Z :=
  0x10000 + Z.shiftl (hi - 0xD800) 10 + (lo - 0xDC00).

(** The code point at the head of [s] and the number of code units that
    spell it. Only called on a non-empty string. *)
Definition codePointAt (s : JSString) : Z * nat :=
  match s with
  | u :: v :: _ =>
      if isHighSurrogate u && isLowSurrogate v then (pairValue u v, 2%nat)
      else (u, 1%nat)
  | [u] => (u, 1%nat)
  | [] => (0, 1%nat)
  end.

Arguments codePointAt : simpl never.

(** The code points of a string, each with the code units that spell it. *)
Fixpoint codePoints (s : JSString) : list (Z * JSString) :=
  match s with
  | [] => []
  | u :: rest =>
      match rest with
      | v :: rest' =>
          if isHighSurrogate u && isLowSurrogate v
          then (pairValue u v, [u; v]) :: codePoints rest'
          else (u, [u]) :: codePoints rest
      | [] => [(u, [u])]
      end
  end.

Definition spell (cps : list (Z * JSString)) : JSString :=
  concat (snd <$> cps).

(** ** The host

    Unicode data and double arithmetic come with the JavaScript engine, not
    with the repository. The laws are facts of every conforming engine:
    lower-casing maps the empty string, and only it, to the empty string;
    on Basic Latin text lower-casing is character-wise and the punctuation
    class is the ASCII one. *)

Definition isBasicLatin (c : Z) : Prop := 0 <= c < 128.

Definition asciiLower (c : Z) : Z :=
  if (65 <=? c) && (c <=? 90) then c + 32 else c.

(** General category [P] inside Basic Latin. *)
Definition asciiPunct (c : Z) : bool :=
  ((33 <=? c) && (c <=? 35)) || ((37 <=? c) && (c <=? 42))
  || ((44 <=? c) && (c <=? 47)) || (c =? 58) || (c =? 59) || (c =? 63)
  || (c =? 64) || ((91 <=? c) && (c <=? 93)) || (c =? 95) || (c =? 123)
  || (c =? 125).

Record Host := {
  (** [String.prototype.toLowerCase] *)
  toLowerCase : JSString -> JSString;
  (** [\p{L}], [\p{N}], [\p{P}] on code points *)
  isLetter : Z -> bool;
  isNumber : Z -> bool;
  isPunct : Z -> bool;
  (** the canonicalisation of a code point under the flags [iu] *)
  canonicalize : Z -> Z;
  (** [Math.round((idx / length) * 100)] on doubles *)
  roundPercent : Z -> Z -> Z;
  (** [Math.ceil((percent / 100) * pageCount)] on doubles *)
  ceilPages : Z -> Z -> Z;
  toLowerCase_nil : toLowerCase [] = [];
  toLowerCase_nonempty : forall s, toLowerCase s = [] -> s = [];
  toLowerCase_ascii :
    forall s, Forall isBasicLatin s -> toLowerCase s = asciiLower <$> s;
  isPunct_ascii : forall c, isBasicLatin c -> isPunct c = asciiPunct c
}.

(** The rows of the tables that the concrete evaluations below use: Basic
    Latin, and U+0130 (capital I with dot above), whose lower case is the two
    code units U+0069 U+0307 whatever the locale. Text outside these rows
    is left alone, so this host stands for a real engine only on strings
    made of Basic Latin, U+0130 and U+0307. Percentages are rounded in exact
    arithmetic. *)
Definition latinLowerUnit (c : Z) : JSString :=
  if c =? 0x130 then [0x69; 0x307] else [asciiLower c].

Definition latinLower (s : JSString) : JSString :=
  concat (latinLowerUnit <$> s).

Definition latinLetter (c : Z) : bool :=
  ((65 <=? c) && (c <=? 90)) || ((97 <=? c) && (c <=? 122)) || (c =? 0x130).

Definition latinDigit (c : Z) : bool := (48 <=? c) && (c <=? 57).

Lemma latinLower_nonempty (s : JSString) : latinLower s = [] -> s = [].
Proof.
  destruct s as [|c s]; [done|]. unfold latinLower, latinLowerUnit. simpl.
  destruct (c =? 0x130); discriminate.
Qed.

Lemma latinLower_ascii (s : JSString) :
  Forall isBasicLatin s -> latinLower s = asciiLower <$> s.
Proof.
  induction 1 as [|c s Hc _ IH]; [done|].
  change (latinLower (c :: s)) with (latinLowerUnit c ++ latinLower s).
  rewrite IH. unfold latinLowerUnit, isBasicLatin in *.
  destruct (Z.eqb_spec c 0x130); [lia|done].
Qed.

Definition latinHost : Host := {|
  toLowerCase := latinLower;
  isLetter := latinLetter;
  isNumber := latinDigit;
  isPunct := asciiPunct;
  canonicalize := asciiLower;
  roundPercent := fun idx n => (200 * idx + n) / (2 * n);
  ceilPages := fun percent pages => (percent * pages + 99) / 100;
  toLowerCase_nil := eq_refl;
  toLowerCase_nonempty := latinLower_nonempty;
  toLowerCase_ascii := latinLower_ascii;
  isPunct_ascii := fun c _ => eq_refl
|}.

(** A host with the Greek rows as well. The lower case of the capital sigma
    U+03A3 depends on its context (the condition Final_Sigma of the special
    casing rules, which [toLowerCase] applies whatever the locale): it is the
    final sigma U+03C2 when a cased letter comes before it and none comes
    after it, case-ignorable characters aside, and the sigma U+03C3
    otherwise. The rows are Basic Latin, U+0130, and the Greek capital and
    small letters U+0391 to U+03A9 and U+03B1 to U+03C9; of the
    case-ignorable characters they hold the apostrophe, the full stop, the
    colon, the circumflex, the grave accent and U+0307. *)
Definition greekCapital (c : Z) : bool :=
  (0x391 <=? c) && (c <=? 0x3A9) && negb (c =? 0x3A2).

Definition greekSmall (c : Z) : bool := (0x3B1 <=? c) && (c <=? 0x3C9).

Definition greekLetter (c : Z) : bool :=
  latinLetter c || greekCapital c || greekSmall c.

Definition isCased (c : Z) : bool := greekLetter c.

Definition isCaseIgnorable (c : Z) : bool :=
  (c =? 0x27) || (c =? 0x2E) || (c =? 0x3A) || (c =? 0x5E) || (c =? 0x60)
  || (c =? 0x307).

(** A cased letter follows, case-ignorable characters aside. *)
Fixpoint followedByCased (s : JSString) : bool :=
  match s with
  | [] => false
  | c :: rest =>
      if isCased c then true
      else if isCaseIgnorable c then followedByCased rest
      else false
  end.

Definition greekLowerUnit (c : Z) : JSString :=
  if greekCapital c then [c + 32] else latinLowerUnit c.

(** [before] says that a cased letter comes before the character at hand,
    case-ignorable characters aside. *)
Fixpoint greekLowerFrom (before : bool) (s : JSString) : JSString :=
  match s with
  | [] => []
  | c :: rest =>
      (if c =? 0x3A3
       then [if before && negb (followedByCased rest) then 0x3C2 else 0x3C3]
       else greekLowerUnit c)
        ++ greekLowerFrom (isCased c || (isCaseIgnorable c && before)) rest
  end.

Definition greekLower (s : JSString) : JSString := greekLowerFrom false s.

(** Simple case folding: both small sigmas fold to U+03C3. *)
Definition greekFold (c : Z) : Z :=
  if greekCapital c then c + 32
  else if c =? 0x3C2 then 0x3C3
  else asciiLower c.

Lemma greekLower_nonempty (s : JSString) : greekLower s = [] -> s = [].
Proof.
  destruct s as [|c s]; [done|]. unfold greekLower. cbn [greekLowerFrom].
  unfold greekLowerUnit, latinLowerUnit.
  destruct (c =? 0x3A3); [discriminate|].
  destruct (greekCapital c); [discriminate|].
  destruct (c =? 0x130); discriminate.
Qed.

Lemma greekLowerFrom_ascii (before : bool) (s : JSString) :
  Forall isBasicLatin s -> greekLowerFrom before s = asciiLower <$> s.
Proof.
  intros H. revert before. induction H as [|c s Hc _ IH]; intros before.
  - done.
  - cbn [greekLowerFrom]. rewrite IH.
    unfold greekLowerUnit, latinLowerUnit, greekCapital, isBasicLatin in *.
    destruct (Z.eqb_spec c 0x3A3); [lia|].
    destruct (Z.leb_spec 0x391 c); [lia|]. cbn [andb].
    destruct (Z.eqb_spec c 0x130); [lia | done].
Qed.

Definition greekHost : Host := {|
  toLowerCase := greekLower;
  isLetter := greekLetter;
  isNumber := latinDigit;
  isPunct := asciiPunct;
  canonicalize := greekFold;
  roundPercent := fun idx n => (200 * idx + n) / (2 * n);
  ceilPages := fun percent pages => (percent * pages + 99) / 100;
  toLowerCase_nil := eq_refl;
  toLowerCase_nonempty := greekLower_nonempty;
  toLowerCase_ascii := greekLowerFrom_ascii false;
  isPunct_ascii := fun c _ => eq_refl
|}.

(** ** Text segmentation *)

Record Sentence := { s_text : JSString; s_start : Z; s_end : Z }.

(** The sentence pattern of [splitIntoSentences] has two groups. Group 1 is
    a body, one or more characters other than [.], [!], [?] and the line
    feed, followed by any number of the terminators [.], [!], [?]. Group 2
    is a run of white space, or the end of the input. The pattern has the
    flag [g] and no flag [u]: it reads code units. *)
Definition isTerminator (c : Z) : bool := (c =? 46) || (c =? 33) || (c =? 63).
Definition isBodyChar (c : Z) : bool := negb (isTerminator c || (c =? 10)).

(** Backtracking into the body: the longest shorter body, of at
    least one character, that is followed by white space. [k] runs down
    from the position before the end of the greedy body. *)
Fixpoint shorterBody (s : JSString) (k : nat) : option nat :=
  match k with
  | O => None
  | S k' =>
      match s !! k with
      | Some c => if isWhiteSpace c then Some k else shorterBody s k'
      | None => shorterBody s k'
      end
  end.

(** One attempt of the sentence pattern with the match starting at the head
    of [s]: the length of group 1 and the length of the whole match.
    The body is taken greedily, then the terminators; the match ends in
    white space or at the end of the input. When neither follows, giving
    back terminators cannot help (the next character is then a terminator),
    so the engine gives back body characters. *)
Definition sentenceAt (s : JSString) : option (nat * nat) :=
  let r := length (takeWhile isBodyChar s) in
  if (r =? 0)%nat then None
  else
    let t := (r + length (takeWhile isTerminator (drop r s)))%nat in
    match drop t s with
    | [] => Some (t, t)
    | c :: _ =>
        if isWhiteSpace c
        then Some (t, (t + length (takeWhile isWhiteSpace (drop t s)))%nat)
        else match shorterBody s (r - 1) with
             | Some r' =>
                 Some (r', (r' + length (takeWhile isWhiteSpace (drop r' s)))%nat)
             | None => None
             end
    end.

(** The [while ((m = re.exec(input)) !== null)] loop. [pos] is the offset of
    [s] in the input; [skip] counts the characters of the previous match
    still to be passed before [lastIndex] is reached. A failed attempt at
    one offset is followed by an attempt at the next, as [exec] does. *)
Fixpoint sentencesFrom (skip : nat) (pos : Z) (s : JSString) : list Sentence :=
  match s with
  | [] => []
  | _ :: s' =>
      match skip with
      | S k => sentencesFrom k (pos + 1) s'
      | O =>
          match sentenceAt s with
          | Some (n1, total) =>
              let sentence := take n1 s in
              let rest := sentencesFrom (total - 1) (pos + 1) s' in
              if len (trim sentence) =? 0 then rest
              else {| s_text := sentence; s_start := pos;
                      s_end := pos + len sentence |} :: rest
          | None => sentencesFrom 0 (pos + 1) s'
          end
      end
  end.

Definition splitIntoSentences (text : JSString) : list Sentence :=
  let out := sentencesFrom 0 0 text in
  if (length out =? 0)%nat && negb (falsy text)
  then [{| s_text := text; s_start := 0; s_end := len text |}]
  else out.

(** ** The match predicate and the match locator *)

Inductive MatchType := Contains | StartsWith | EndsWith | OtherType.

Record MatchInfo := {
  mi_index : Z;
  mi_length : Z;
  mi_matchPercent : Z;
  mi_snippet : JSString;
  mi_highlightedSnippet : JSString
}.

Definition markOpen : JSString :=
  js "<mark class=" ++ [34] ++ js "search-highlight" ++ [34] ++ js ">".
Definition markClose : JSString := js "</mark>".
Definition ellipsis : JSString := [0x2026].

Section Engine.

Context (host : Host).

Definition normalize (str : JSString) : JSString := toLowerCase host str.

(** [[\p{P}\s]] on a code point. *)
Definition isTrimClass (cp : Z * JSString) : bool :=
  isPunct host (fst cp) || isWhiteSpace (fst cp).

(** [text.replace(TRIM_START_PUNCT_RE, '')] and
    [text.replace(TRIM_END_PUNCT_RE, '')]. *)
Definition trimStartPunct (s : JSString) : JSString :=
  spell (dropWhile isTrimClass (codePoints s)).

Definition trimEndPunct (s : JSString) : JSString :=
  spell (dropWhileEnd isTrimClass (codePoints s)).

Definition sentenceStartsWith (n : JSString) (s : Sentence) : bool :=
  startsWith (normalize (trimStartPunct (s_text s))) n.

Definition sentenceEndsWith (n : JSString) (s : Sentence) : bool :=
  endsWith (normalize (trimEndPunct (s_text s))) n.

Definition matchByType (haystack needle : JSString) (type : MatchType) : bool :=
  let h := haystack in
  let n := normalize needle in
  if falsy n then false
  else match type with
       | Contains => includes (normalize h) n
       | StartsWith => existsb (sentenceStartsWith n) (splitIntoSentences h)
       | EndsWith => existsb (sentenceEndsWith n) (splitIntoSentences h)
       | OtherType => false
       end.

(** The [for (const s of sentences)] loop of [computeMatchInfo]: the offset
    assigned at the first sentence that satisfies the anchored test, [-1]
    when the loop ends without a [break]. *)
Fixpoint locateAnchored (type : MatchType) (q lq : JSString)
    (sentences : list Sentence) : Z :=
  match sentences with
  | [] => -1
  | s :: rest =>
      match type with
      | StartsWith =>
          let leftTrim := trimStartPunct (s_text s) in
          if startsWith (normalize leftTrim) lq
          then s_start s + (len (s_text s) - len leftTrim)
          else locateAnchored type q lq rest
      | EndsWith =>
          let rightTrim := trimEndPunct (s_text s) in
          if endsWith (normalize rightTrim) lq
          then s_start s + len rightTrim - len q
          else locateAnchored type q lq rest
      | _ => locateAnchored type q lq rest
      end
  end.

Definition snippetRadius : Z := 220.

Definition computeMatchInfo (text query : JSString) (type : MatchType)
    : option MatchInfo :=
  let hay := text in
  let q := query in
  if falsy hay || falsy q then None
  else
    let lhay := normalize hay in
    let lq := normalize q in
    let idx :=
      match type with
      | Contains => indexOf lhay lq
      | _ => locateAnchored type q lq (splitIntoSentences hay)
      end in
    if idx <? 0 then None
    else
      let start := Z.max 0 (idx - snippetRadius) in
      let end_ := Z.min (len hay) (idx + len q + snippetRadius) in
      let prefix := slice hay start idx in
      let match_ := slice hay idx (idx + len q) in
      let suffix := slice hay (idx + len q) end_ in
      let matchPercent :=
        if 0 <? len hay then roundPercent host idx (len hay) else 0 in
      let lead := if 0 <? start then ellipsis else [] in
      let trail := if end_ <? len hay then ellipsis else [] in
      Some {| mi_index := idx;
              mi_length := len q;
              mi_matchPercent := matchPercent;
              mi_snippet := lead ++ prefix ++ match_ ++ suffix ++ trail;
              mi_highlightedSnippet :=
                lead ++ prefix ++ markOpen ++ match_ ++ markClose
                     ++ suffix ++ trail |}.

End Engine.

(** ** The highlight renderer *)

(** [escapeRegExp]: a backslash before each of the fourteen characters
    that the class of the source lists. *)
Definition isRegExpSyntax (c : Z) : bool :=
  existsb (Z.eqb c) [46; 42; 43; 63; 94; 36; 123; 125; 40; 41; 124; 91; 93; 92].

Definition escapeUnit (c : Z) : JSString :=
  if isRegExpSyntax c then [92; c] else [c].

Definition escapeRegExp (str : JSString) : JSString :=
  concat (escapeUnit <$> str).

(** [new RegExp(source, 'giu')] for a source in which every syntax character
    is escaped: the pattern is a sequence of literal code points, a backslash
    standing for the character that follows it. *)
Fixpoint patternChars (cps : list (Z * JSString)) : list Z :=
  match cps with
  | [] => []
  | (c, _) :: rest =>
      if c =? 92
      then match rest with
           | [] => [c]
           | (c', _) :: rest' => c' :: patternChars rest'
           end
      else c :: patternChars rest
  end.

Definition compilePattern (source : JSString) : list Z :=
  patternChars (codePoints source).

(** The sources that [new RegExp(source, 'giu')] reads as a sequence of
    literal characters, and the characters they stand for. Under the flag
    [u] a character that is no syntax character stands for itself, and a
    backslash is an identity escape before a syntax character or a slash
    only. Every other source has an operator, a class, a group or an escape
    of another kind, or is a syntax error: it is no literal pattern. *)
Fixpoint literalChars (cps : list (Z * JSString)) : option (list Z) :=
  match cps with
  | [] => Some []
  | (c, _) :: rest =>
      if c =? 92
      then match rest with
           | [] => None
           | (c', _) :: rest' =>
               if isRegExpSyntax c' || (c' =? 47)
               then cons c' <$> literalChars rest'
               else None
           end
      else if isRegExpSyntax c then None
      else cons c <$> literalChars rest
  end.

Definition literalPattern (source : JSString) : option (list Z) :=
  literalChars (codePoints source).

Record Range := { r_start : Z; r_end : Z }.

(** [ranges.sort((a, b) => a.start - b.start)]; the sort of an array is
    stable. *)
Fixpoint insertRange (r : Range) (l : list Range) : list Range :=
  match l with
  | [] => [r]
  | x :: l' => if r_start r <=? r_start x then r :: l else x :: insertRange r l'
  end.

Definition sortRanges (l : list Range) : list Range :=
  foldr insertRange [] l.

(** The loop of [highlightRanges], [last] being the offset reached. *)
Fixpoint emitRanges (text : JSString) (last : Z) (ranges : list Range)
    : JSString :=
  match ranges with
  | [] => sliceFrom text last
  | r :: rest =>
      slice text last (r_start r)
        ++ (markOpen ++ slice text (r_start r) (r_end r) ++ markClose)
        ++ emitRanges text (r_end r) rest
  end.

Definition highlightRanges (text : JSString) (ranges : list Range) : JSString :=
  if (length ranges =? 0)%nat then text
  else emitRanges text 0 (sortRanges ranges).

Section Renderer.

Context (host : Host).

(** The pattern matched at the head of [s], code point by code point and
    up to case: the number of code units matched. *)
Fixpoint matchHere (pat : list Z) (s : JSString) : option nat :=
  match pat with
  | [] => Some 0%nat
  | p :: pat' =>
      match s with
      | [] => None
      | _ :: _ =>
          let cw := codePointAt s in
          if canonicalize host (fst cw) =? canonicalize host p
          then (fun k => (snd cw + k)%nat) <$> matchHere pat' (drop (snd cw) s)
          else None
      end
  end.

(** [text.replace(pattern, m => <mark ...>m</mark>)] with a global pattern:
    the matches are looked for from left to right, each search starting
    where the previous match ended; where the pattern fails the search
    moves on by one code point. The pattern of [highlightAll] is never
    empty, so no match is. *)
Equations? replaceMatches (pat : list Z) (s : JSString) : JSString
    by wf (length s) lt :=
  replaceMatches pat [] := [];
  replaceMatches pat (u :: s') with matchHere pat (u :: s') => {
    | Some (S k) :=
        (markOpen ++ take (S k) (u :: s') ++ markClose)
          ++ replaceMatches pat (drop (S k) (u :: s'));
    | _ :=
        take (snd (codePointAt (u :: s'))) (u :: s')
          ++ replaceMatches pat (drop (snd (codePointAt (u :: s'))) (u :: s')) }.
Proof.
  all: try (rewrite length_drop; simpl; lia).
  all: destruct s' as [|v s'']; unfold codePointAt; simpl;
    try destruct (isHighSurrogate u && isLowSurrogate v); simpl;
    try rewrite length_drop; lia.
Qed.

Definition highlightAll (text query : JSString) : JSString :=
  if falsy text || falsy query then text
  else replaceMatches (compilePattern (escapeRegExp query)) text.

(** The ranges that [highlightByType] pushes, one for each sentence that
    satisfies the anchored test. *)
Fixpoint anchoredRanges (type : MatchType) (lq : JSString)
    (sentences : list Sentence) : list Range :=
  match sentences with
  | [] => []
  | s :: rest =>
      match type with
      | StartsWith =>
          let leftTrim := trimStartPunct host (s_text s) in
          if startsWith (normalize host leftTrim) lq
          then
            let start := s_start s + (len (s_text s) - len leftTrim) in
            {| r_start := start; r_end := start + len lq |}
              :: anchoredRanges type lq rest
          else anchoredRanges type lq rest
      | EndsWith =>
          let rightTrim := trimEndPunct host (s_text s) in
          if endsWith (normalize host rightTrim) lq
          then
            let start := s_start s + len rightTrim - len lq in
            {| r_start := start; r_end := start + len lq |}
              :: anchoredRanges type lq rest
          else anchoredRanges type lq rest
      | _ => anchoredRanges type lq rest
      end
  end.

Definition highlightByType (text query : JSString) (type : MatchType)
    : JSString :=
  if falsy text || falsy query then text
  else match type with
       | Contains => highlightAll text query
       | _ =>
           highlightRanges text
             (anchoredRanges type (normalize host query)
                (splitIntoSentences text))
       end.

End Renderer.

(** ** Documents and the search orchestrator *)

(** A record of the [documents] collection. A field that is absent, [null]
    or [undefined] is [None]; the other fields of a record are carried
    along unread and are left out. *)
Record Doc := {
  d_id : JSString;
  fileName : option JSString;
  author : option JSString;
  title : option JSString;
  textContent : option JSString;
  textContentStoragePath : option JSString;
  pageCount : option Z
}.

(** [v || ''], and [String(v || '')], of a field. *)
Definition orEmpty (v : option JSString) : JSString := default [] v.

Definition truthy (v : option JSString) : bool := negb (falsy (orEmpty v)).

Definition setTextContent (doc : Doc) (text : JSString) : Doc :=
  {| d_id := d_id doc; fileName := fileName doc; author := author doc;
     title := title doc; textContent := Some text;
     textContentStoragePath := textContentStoragePath doc;
     pageCount := pageCount doc |}.

Record SearchResult := {
  sr_doc : Doc;
  highlightedContent : option JSString;
  highlightedFullContent : option JSString;
  highlightedFileName : JSString;
  highlightedAuthor : JSString;
  matchIndex : option Z;
  matchPercent : option Z;
  estimatedPage : option Z
}.

Inductive SearchField := FieldAll | FieldContent | FieldFileName | FieldAuthor.

(** How a promise settles. *)
Inductive Outcome (A : Type) := Resolved (a : A) | Rejected.
Arguments Resolved {A} a.
Arguments Rejected {A}.

(** The two collaborators: the document store behind [fetchAllDocuments],
    and the blob store, reached by the chain [getDownloadURL], [fetch],
    [res.text()], any step of which may throw. *)
Record Backend := {
  fetchAllDocuments : Outcome (list Doc);
  downloadText : JSString -> Outcome JSString
}.

(** [fuse.search(q).map(r => r.item)] for a [Fuse] built over a list of
    candidates. The engine is taken to return: building it and searching
    raise nothing here, nor does [getStorage()], so the one call of
    [searchDocuments] that can fail the search is the corpus fetch. *)
Definition Ranker := list Doc -> JSString -> list Doc.

Definition resultCap : nat := 100.

Section Orchestrator.

Context (host : Host) (fuse : Ranker) (backend : Backend).

(** The body of the callback under [Promise.all]; the [catch] is empty. *)
Definition hydrate (doc : Doc) : Doc :=
  if negb (truthy (textContent doc)) && truthy (textContentStoragePath doc)
  then match downloadText backend (orEmpty (textContentStoragePath doc)) with
       | Resolved fullText => setTextContent doc fullText
       | Rejected => doc
       end
  else doc.

(** The callback of [docs.filter]. *)
Definition isCandidate (q : JSString) (searchType : MatchType)
    (searchField : SearchField) (doc : Doc) : bool :=
  let text := orEmpty (textContent doc) in
  let name := orEmpty (fileName doc) in
  let author := orEmpty (author doc) in
  let title := orEmpty (title doc) in
  match searchField with
  | FieldFileName => matchByType host name q searchType
  | FieldAuthor => matchByType host author q searchType
  | FieldContent => matchByType host text q searchType
  | FieldAll =>
      matchByType host text q searchType
      || matchByType host name q searchType
      || matchByType host author q searchType
      || matchByType host title q searchType
  end.

(** [ranked.length ? ranked : candidates]. *)
Definition orderCandidates (candidates : list Doc) (q : JSString) : list Doc :=
  let ranked := fuse candidates q in
  if negb (length ranked =? 0)%nat then ranked else candidates.

(** The callback of [ordered.map]. *)
Definition enrich (q : JSString) (searchType : MatchType) (doc : Doc)
    : SearchResult :=
  match computeMatchInfo host (orEmpty (textContent doc)) q searchType with
  | Some info =>
      let estimated :=
        match pageCount doc with
        | Some pages =>
            if pages =? 0 then None
            else Some (Z.min pages
                         (Z.max 1 (ceilPages host (mi_matchPercent info) pages)))
        | None => None
        end in
      {| sr_doc := doc;
         highlightedContent := Some (mi_highlightedSnippet info);
         highlightedFullContent :=
           Some (highlightByType host (orEmpty (textContent doc)) q searchType);
         highlightedFileName :=
           highlightByType host (orEmpty (fileName doc)) q searchType;
         highlightedAuthor :=
           highlightByType host (orEmpty (author doc)) q searchType;
         matchIndex := Some (mi_index info);
         matchPercent := Some (mi_matchPercent info);
         estimatedPage := estimated |}
  | None =>
      {| sr_doc := doc;
         highlightedContent := None;
         highlightedFullContent := None;
         highlightedFileName :=
           highlightByType host (orEmpty (fileName doc)) q searchType;
         highlightedAuthor :=
           highlightByType host (orEmpty (author doc)) q searchType;
         matchIndex := None;
         matchPercent := None;
         estimatedPage := None |}
  end.

(** [/[\p{L}\p{N}]/u.test(q)]. *)
Definition hasAlphaNum (q : JSString) : bool :=
  existsb (fun cp => isLetter host (fst cp) || isNumber host (fst cp))
    (codePoints q).

Definition candidatesOf (docs : list Doc) (q : JSString)
    (searchType : MatchType) (searchField : SearchField) : list Doc :=
  List.filter (isCandidate q searchType searchField) (hydrate <$> docs).

Definition searchDocuments (searchQuery : JSString) (searchType : MatchType)
    (searchField : SearchField) : Outcome (list SearchResult) :=
  let q := trim searchQuery in
  if falsy q then Resolved []
  else if negb (hasAlphaNum q) then Resolved []
  else
    match fetchAllDocuments backend with
    | Rejected => Rejected
    | Resolved docs =>
        let candidates := candidatesOf docs q searchType searchField in
        let ordered := orderCandidates candidates q in
        let enriched := enrich q searchType <$> ordered in
        Resolved (take resultCap enriched)
    end.

End Orchestrator.

(** A ranker for the concrete evaluations: the fuzzy engine at no tolerated
    error. With the threshold 0.2 of the source a pattern of fewer than five
    characters tolerates no edit, and with [ignoreLocation] the place of an
    occurrence does not count: a record is a hit exactly when one of the
    four keys, lower-cased as a whole, contains the lower-cased pattern. The
    hits are left in the order of the list, where the engine sorts them by
    score: the evaluations below have one hit, or count the hits. *)
Definition fuseKeys (doc : Doc) : list (option JSString) :=
  [textContent doc; fileName doc; title doc; author doc].

Definition exactFuse (host : Host) : Ranker :=
  fun candidates q =>
    List.filter
      (fun doc =>
         existsb (fun v => includes (toLowerCase host (orEmpty v))
                                    (toLowerCase host q))
           (fuseKeys doc))
      candidates.

(** ** Reading the rendered text

    Deleting every occurrence of a marker, from left to right, as
    [replaceAll(marker, '')] does; [skip] counts the characters of the
    occurrence being deleted. *)
Fixpoint deleteAllFrom (marker : JSString) (skip : nat) (s : JSString)
    : JSString :=
  match s with
  | [] => []
  | c :: s' =>
      match skip with
      | S k => deleteAllFrom marker k s'
      | O =>
          if startsWith s marker && negb (falsy marker)
          then deleteAllFrom marker (length marker - 1) s'
          else c :: deleteAllFrom marker 0 s'
      end
  end.

Definition stripMarkers (s : JSString) : JSString :=
  deleteAllFrom markClose 0 (deleteAllFrom markOpen 0 s).

(** ** Order of sentences and of ranges

    [inOrder lo hi] holds of a list of sentences that lie between the
    offsets [lo] and [hi], one after the other, without overlap;
    [rangesInOrder lo hi] is the same for ranges. *)

Fixpoint inOrder (lo hi : Z) (l : list Sentence) : Prop :=
  match l with
  | [] => True
  | s :: l' =>
      lo <= s_start s
      /\ s_start s + len (s_text s) <= hi
      /\ inOrder (s_start s + len (s_text s)) hi l'
  end.

Fixpoint rangesInOrder (lo hi : Z) (l : list Range) : Prop :=
  match l with
  | [] => True
  | r :: l' =>
      lo <= r_start r /\ r_start r <= r_end r /\ r_end r <= hi
      /\ rangesInOrder (r_end r) hi l'
  end.

(** ** Data of the concrete evaluations *)

(** A record with a file name and nothing else. *)
Definition namedDoc (name : string) : Doc :=
  {| d_id := js name; fileName := Some (js name); author := None;
     title := None; textContent := None; textContentStoragePath := None;
     pageCount := None |}.

(** A record whose text is still in the blob store. *)
Definition pendingDoc (name path : string) : Doc :=
  {| d_id := js name; fileName := Some (js name); author := None;
     title := None; textContent := None;
     textContentStoragePath := Some (js path); pageCount := None |}.

(** A store with the given corpus and an unreachable blob store, and a
    store that is itself unreachable. *)
Definition offlineBlobs (docs : list Doc) : Backend :=
  {| fetchAllDocuments := Resolved docs; downloadText := fun _ => Rejected |}.

Definition offlineStore : Backend :=
  {| fetchAllDocuments := Rejected; downloadText := fun _ => Rejected |}.

(** U+0130, capital I with dot above. *)
Definition dottedI : Z := 0x130.

(** A record with a text and nothing else; the text U+0391 [.] U+03A3, in
    which the capital sigma is final, and the text of the capital sigma
    alone, in which it is not. *)
Definition textDoc (id : string) (text : JSString) : Doc :=
  {| d_id := js id; fileName := None; author := None; title := None;
     textContent := Some text; textContentStoragePath := None;
     pageCount := None |}.

Definition sigmaAfterStop : Doc := textDoc "1" [0x391; 46; 0x3A3].
Definition sigmaAlone : Doc := textDoc "2" [0x3A3].

(** ** Word tokens *)

Record Token := {
  t_word : JSString;
  t_start : Z;
  t_end : Z;
  t_lower : JSString
}.

(** ** Suggestions, the advanced search and the search form *)

Record Suggestion := { suggestion : option JSString }.

Definition suggestionCap : nat := 5.

(** The argument of [advancedSearch], with the defaults of its
    destructuring already filled in. *)
Record SearchOptions := {
  o_query : JSString;
  o_fileType : JSString;
  o_author : JSString;
  o_type : MatchType;
  o_field : SearchField
}.

(** What [advancedSearch] filters: the results of [searchDocuments], or the
    records of the corpus when there is no query. *)
Inductive Hit := EnrichedHit (r : SearchResult) | PlainHit (d : Doc).

Definition hitDoc (h : Hit) : Doc :=
  match h with
  | EnrichedHit r => sr_doc r
  | PlainHit d => d
  end.

(** An entry of the recent searches that the search form keeps. *)
Record RecentSearch := {
  rs_query : JSString;
  rs_type : MatchType;
  rs_field : SearchField;
  rs_timestamp : Z;
  rs_resultCount : Z
}.

Definition recentCap : nat := 5.

(** The updater given to [setRecentSearches]. *)
Definition rememberSearch (newSearch : RecentSearch) (searchQuery : JSString)
    (prev : list RecentSearch) : list RecentSearch :=
  let filtered :=
    List.filter (fun s => negb (bool_decide (rs_query s = searchQuery))) prev in
  take recentCap (newSearch :: filtered).

Section Service.

Context (host : Host).

(** [[\p{L}\p{N}]] on a code point. *)
Definition isWordChar (cp : Z * JSString) : bool :=
  isLetter host (fst cp) || isNumber host (fst cp).

(** The token that a run of word characters, begun at [start], makes once
    the run has ended. *)
Definition closeToken (cur : option (Z * JSString)) : list Token :=
  match cur with
  | None => []
  | Some (start, word) =>
      [{| t_word := word; t_start := start; t_end := start + len word;
          t_lower := normalize host word |}]
  end.

(** The [exec] loop of [tokenizeWithOffsets] over the code points of the
    text. The pattern is one or more word characters, taken greedily, with the
    flags [g] and [u]: a match is a maximal run of word characters, and the
    next search starts where it ended. [pos] is the offset of the code point
    at hand, [cur] the run in progress. *)
Fixpoint tokensFrom (pos : Z) (cur : option (Z * JSString))
    (cps : list (Z * JSString)) : list Token :=
  match cps with
  | [] => closeToken cur
  | cp :: rest =>
      if isWordChar cp
      then tokensFrom (pos + len (snd cp))
             (Some match cur with
                   | None => (pos, snd cp)
                   | Some (start, word) => (start, word ++ snd cp)
                   end)
             rest
      else closeToken cur ++ tokensFrom (pos + len (snd cp)) None rest
  end.

Definition tokenizeWithOffsets (text : JSString) : list Token :=
  tokensFrom 0 None (codePoints text).

Context (fuse : Ranker) (backend : Backend).

Definition getSearchSuggestions (partial : JSString)
    : Outcome (list Suggestion) :=
  let q := trim partial in
  if falsy q then Resolved []
  else
    match fetchAllDocuments backend with
    | Rejected => Rejected
    | Resolved docs =>
        Resolved
          ((fun d => {| suggestion := fileName d |})
             <$> take suggestionCap
                   (List.filter
                      (fun d => matchByType host (orEmpty (fileName d)) q Contains)
                      docs))
    end.

(** The field [fileExtension] of a record, which [Doc] leaves out. *)
Context (fileExtension : Doc -> option JSString).

Definition fileTypeFilter (fileType : JSString) (d : Hit) : bool :=
  includes (toLowerCase host (orEmpty (fileExtension (hitDoc d))))
    (toLowerCase host fileType).

Definition authorFilter (wanted : JSString) (d : Hit) : bool :=
  includes (normalize host (orEmpty (author (hitDoc d))))
    (normalize host wanted).

Definition advancedSearch (o : SearchOptions) : Outcome (list Hit) :=
  let found :=
    if negb (falsy (o_query o))
    then match searchDocuments host fuse backend (o_query o) (o_type o)
                 (o_field o) with
         | Resolved results => Resolved (EnrichedHit <$> results)
         | Rejected => Rejected
         end
    else match fetchAllDocuments backend with
         | Resolved docs => Resolved (PlainHit <$> docs)
         | Rejected => Rejected
         end in
  match found with
  | Rejected => Rejected
  | Resolved results =>
      let byType :=
        if negb (falsy (o_fileType o))
        then List.filter (fileTypeFilter (o_fileType o)) results
        else results in
      let byAuthor :=
        if negb (falsy (o_author o))
        then List.filter (authorFilter (o_author o)) byType
        else byType in
      Resolved (take resultCap byAuthor)
  end.

(** [performSearch] of the search form: the results handed to
    [onSearchResults] and the recent searches afterwards. [now] is
    [Date.now()]; the loading flags of the form are left out. A search that
    fails is caught and shows no result. *)
Definition performSearch (now : Z) (searchQuery : JSString)
    (searchType : MatchType) (searchField : SearchField)
    (recent : list RecentSearch) : list SearchResult * list RecentSearch :=
  if falsy (trim searchQuery) then ([], recent)
  else
    match searchDocuments host fuse backend searchQuery searchType searchField with
    | Resolved results =>
        (results,
         rememberSearch
           {| rs_query := searchQuery; rs_type := searchType;
              rs_field := searchField; rs_timestamp := now;
              rs_resultCount := Z.of_nat (length results) |}
           searchQuery recent)
    | Rejected => ([], recent)
    end.

End Service.

(** * Properties *)

(** ** The relevance ranker *)

Section RankerFacts.

Context (fuse : Ranker).

Lemma orderCandidates_no_hit (candidates : list Doc) (q : JSString) :
  fuse candidates q = [] -> orderCandidates fuse candidates q = candidates.
Proof. intros H. unfold orderCandidates. by rewrite H. Qed.

Lemma orderCandidates_hits (candidates : list Doc) (q : JSString) :
  fuse candidates q <> [] ->
  orderCandidates fuse candidates q = fuse candidates q.
Proof.
  intros H. unfold orderCandidates.
  by destruct (fuse candidates q).
Qed.

Lemma orderCandidates_cases (candidates : list Doc) (q : JSString) :
  (fuse candidates q = [] /\ orderCandidates fuse candidates q = candidates)
  \/ (fuse candidates q <> []
      /\ orderCandidates fuse candidates q = fuse candidates q).
Proof.
  destruct (fuse candidates q) as [|d l] eqn:E.
  - left. split; [done|]. by apply orderCandidates_no_hit.
  - right. split; [done|]. rewrite <- E. apply orderCandidates_hits.
    by rewrite E.
Qed.

(** C2. When the fuzzy engine has no hit, the ranking step yields the
    filtered candidates themselves, in their order; so the ranked list is
    never empty when the filtered list is not. *)
Theorem ranker_falls_back_on_no_hit (candidates : list Doc) (q : JSString) :
  fuse candidates q = [] ->
  orderCandidates fuse candidates q = candidates
  /\ (candidates <> [] -> orderCandidates fuse candidates q <> []).
Proof.
  intros H. rewrite (orderCandidates_no_hit _ _ H). split; done.
Qed.


End RankerFacts.

Lemma filter_submseteq {A} (f : A -> bool) (l : list A) : List.filter f l ⊆+ l.
Proof.
  induction l as [|x l IH]; simpl; [done|].
  destruct (f x); [by apply submseteq_skip | by apply submseteq_cons].
Qed.

Lemma exactFuse_submseteq (host : Host) (candidates : list Doc) (q : JSString) :
  exactFuse host candidates q ⊆+ candidates.
Proof. apply filter_submseteq. Qed.

Lemma ranker_falls_back_on_no_hit_witness :
  orderCandidates (exactFuse latinHost) [namedDoc "xyz"] (js "abc")
    = [namedDoc "xyz"]
  /\ orderCandidates (exactFuse latinHost) [namedDoc "xyz"] (js "abc") <> [].
Proof.
  destruct (ranker_falls_back_on_no_hit (exactFuse latinHost)
              [namedDoc "xyz"] (js "abc") eq_refl) as [H1 H2].
  split; [exact H1 | apply H2; discriminate].
Defined.



(** ** The orchestrator: result cap and hydration *)

Section OrchestratorFacts.

Context (host : Host) (fuse : Ranker).

Lemma searchDocuments_resolved (backend : Backend) (docs : list Doc)
    (searchQuery : JSString) (searchType : MatchType)
    (searchField : SearchField) :
  fetchAllDocuments backend = Resolved docs ->
  falsy (trim searchQuery) = false ->
  hasAlphaNum host (trim searchQuery) = true ->
  searchDocuments host fuse backend searchQuery searchType searchField
  = Resolved
      (take resultCap
         (enrich host (trim searchQuery) searchType
            <$> orderCandidates fuse
                  (candidatesOf host backend docs (trim searchQuery)
                     searchType searchField)
                  (trim searchQuery))).
Proof.
  intros Hdocs Hq Han. unfold searchDocuments.
  by rewrite Hq, Han, Hdocs.
Qed.

Lemma searchDocuments_length (backend : Backend) (searchQuery : JSString)
    (searchType : MatchType) (searchField : SearchField)
    (results : list SearchResult) :
  searchDocuments host fuse backend searchQuery searchType searchField
    = Resolved results ->
  (length results <= resultCap)%nat.
Proof.
  unfold searchDocuments.
  destruct (falsy (trim searchQuery)); [intros [= <-]; simpl; lia|].
  destruct (hasAlphaNum host (trim searchQuery)); simpl;
    [|intros [= <-]; simpl; lia].
  destruct (fetchAllDocuments backend) as [docs|]; [|discriminate].
  intros [= <-]. rewrite length_take. lia.
Qed.

Lemma hasAlphaNum_nonempty (q : JSString) :
  hasAlphaNum host q = true -> falsy q = false.
Proof. by destruct q. Qed.

(** C8, as amended. A search that resolves returns at most 100 results. A
    query without a letter or a digit returns nothing. For a query with one
    the results are the first 100 of the ranked candidates, enriched, in
    their order, and all of them when there are fewer; so when 150 records
    pass the filter and the ranking step keeps them (the engine has no hit,
    or a hit for every candidate), exactly 100 are returned. *)
Theorem searchDocuments_caps_results (backend : Backend) (docs : list Doc)
    (searchQuery : JSString) (searchType : MatchType)
    (searchField : SearchField) (results : list SearchResult) :
  fetchAllDocuments backend = Resolved docs ->
  searchDocuments host fuse backend searchQuery searchType searchField
    = Resolved results ->
  let q := trim searchQuery in
  let candidates := candidatesOf host backend docs q searchType searchField in
  let ranked := orderCandidates fuse candidates q in
  (length results <= 100)%nat
  /\ (hasAlphaNum host q = false -> results = [])
  /\ (hasAlphaNum host q = true ->
      results = enrich host q searchType <$> take 100 ranked
      /\ length results = (100 `min` length ranked)%nat)
  /\ (hasAlphaNum host q = true ->
      length candidates = 150%nat ->
      fuse candidates q = [] \/ fuse candidates q ≡ₚ candidates ->
      length results = 100%nat).
Proof.
  intros Hdocs Hres q candidates ranked.
  split; [by eapply searchDocuments_length|].
  assert (Hfirst : hasAlphaNum host q = true ->
            results = enrich host q searchType <$> take 100 ranked
            /\ length results = (100 `min` length ranked)%nat).
  { intros Han. pose proof (hasAlphaNum_nonempty q Han) as Hq.
    rewrite (searchDocuments_resolved _ _ _ _ _ Hdocs Hq Han) in Hres.
    injection Hres as <-. split; [by rewrite fmap_take|].
    by rewrite length_take, length_fmap. }
  split; [|split; [exact Hfirst|]].
  - intros Han. revert Hres. unfold searchDocuments.
    destruct (falsy (trim searchQuery)); [by intros [= <-]|].
    fold q. rewrite Han. by intros [= <-].
  - intros Han H150 Hkeep. destruct (Hfirst Han) as [_ ->]. unfold ranked.
    destruct (orderCandidates_cases fuse candidates q) as [[_ ->]|[Hne ->]].
    + rewrite H150. reflexivity.
    + destruct Hkeep as [?|Hperm]; [done|].
      rewrite (Permutation_length Hperm), H150. reflexivity.
Qed.

Lemma hydrate_unchanged_on_failure (backend : Backend) (doc : Doc) :
  downloadText backend (orEmpty (textContentStoragePath doc)) = Rejected ->
  hydrate backend doc = doc.
Proof.
  intros H. unfold hydrate. rewrite H.
  by destruct (negb (truthy (textContent doc))
               && truthy (textContentStoragePath doc)).
Qed.

Lemma matchByType_empty_haystack (q : JSString) (type : MatchType) :
  matchByType host [] q type = false.
Proof.
  unfold matchByType. destruct (normalize host q) as [|c n] eqn:E; [done|].
  simpl. destruct type; try done.
  unfold normalize. rewrite toLowerCase_nil. reflexivity.
Qed.

(** C7. Whatever the blob store does, a search whose corpus fetch succeeds
    resolves, and for a query with a letter or a digit its results are the
    first 100 of the ranked candidates. A record whose text download fails
    stays in the corpus as it was fetched: its empty text matches nothing,
    and it is a candidate exactly when the query matches, in the scope of
    the search, its file name, author or title. When it is one, it is among
    the results, for a corpus of at most 100 records and an engine that has
    no hit, or has a hit for it and returns only candidates. *)
Theorem hydration_failure_is_local (docs : list Doc)
    (download : JSString -> Outcome JSString) (searchQuery : JSString)
    (searchType : MatchType) (searchField : SearchField) (doc : Doc) :
  let backend :=
    {| fetchAllDocuments := Resolved docs; downloadText := download |} in
  let q := trim searchQuery in
  let candidates := candidatesOf host backend docs q searchType searchField in
  let onOwnFields :=
    match searchField with
    | FieldContent => false
    | FieldFileName => matchByType host (orEmpty (fileName doc)) q searchType
    | FieldAuthor => matchByType host (orEmpty (author doc)) q searchType
    | FieldAll =>
        matchByType host (orEmpty (fileName doc)) q searchType
        || matchByType host (orEmpty (author doc)) q searchType
        || matchByType host (orEmpty (title doc)) q searchType
    end in
  doc ∈ docs ->
  truthy (textContent doc) = false ->
  truthy (textContentStoragePath doc) = true ->
  download (orEmpty (textContentStoragePath doc)) = Rejected ->
  exists results,
    searchDocuments host fuse backend searchQuery searchType searchField
      = Resolved results
    /\ (hasAlphaNum host q = true ->
        results
        = take resultCap
            (enrich host q searchType <$> orderCandidates fuse candidates q))
    /\ hydrate backend doc = doc
    /\ matchByType host (orEmpty (textContent doc)) q searchType = false
    /\ (doc ∈ candidates <-> onOwnFields = true)
    /\ (hasAlphaNum host q = true ->
        onOwnFields = true ->
        fuse candidates q = []
        \/ (doc ∈ fuse candidates q /\ fuse candidates q ⊆+ candidates) ->
        (length docs <= 100)%nat ->
        enrich host q searchType doc ∈ results).
Proof.
  intros backend q candidates onOwnFields Hin Htext Hpath Hfail.
  assert (Hhyd : hydrate backend doc = doc)
    by (by apply hydrate_unchanged_on_failure).
  assert (Hin' : doc ∈ hydrate backend <$> docs).
  { rewrite <- Hhyd at 1. by apply list_elem_of_fmap_2. }
  assert (Hnone : matchByType host (orEmpty (textContent doc)) q searchType
                  = false).
  { unfold truthy in Htext.
    destruct (orEmpty (textContent doc)); [|done].
    apply matchByType_empty_haystack. }
  assert (Hown : isCandidate host q searchType searchField doc = onOwnFields).
  { unfold isCandidate, onOwnFields. rewrite Hnone. by destruct searchField. }
  assert (Hcand : doc ∈ candidates <-> onOwnFields = true).
  { unfold candidates, candidatesOf.
    rewrite list_elem_of_In, filter_In, <- list_elem_of_In, Hown. tauto. }
  assert (Hlen : (length candidates <= length docs)%nat).
  { unfold candidates, candidatesOf.
    etrans; [apply submseteq_length, filter_submseteq|].
    by rewrite length_fmap. }
  destruct (hasAlphaNum host q) eqn:Han.
  - exists (take resultCap
              (enrich host q searchType <$> orderCandidates fuse candidates q)).
    split.
    { apply searchDocuments_resolved;
        [done | by apply hasAlphaNum_nonempty | done]. }
    repeat split; try done; try apply Hcand.
    intros _ Hmatch Hengine Hsmall. apply Hcand in Hmatch.
    assert (Hord : doc ∈ orderCandidates fuse candidates q
                   /\ (length (orderCandidates fuse candidates q)
                       <= length candidates)%nat).
    { destruct (orderCandidates_cases fuse candidates q) as [[E ->]|[E ->]];
        [done|].
      destruct Hengine as [?|[Hhit Hsub]]; [done|]. split; [done|].
      by apply submseteq_length. }
    destruct Hord as [Hdoc Hshort].
    rewrite take_ge by (rewrite length_fmap; unfold resultCap; lia).
    by apply list_elem_of_fmap_2.
  - exists []. split.
    { unfold searchDocuments. fold q. rewrite Han.
      by destruct (falsy q). }
    repeat split; try done; apply Hcand.
Qed.

End OrchestratorFacts.

Lemma filter_filter_implies {A} (c p : A -> bool) (l : list A) :
  (forall x, c x = true -> p x = true) ->
  List.filter p (List.filter c l) = List.filter c l.
Proof.
  intros H. induction l as [|x l IH]; [done|]. simpl.
  destruct (c x) eqn:E; [|done]. simpl. by rewrite (H x E), IH.
Qed.

Lemma matchByType_contains_includes (host : Host) (text q : JSString) :
  matchByType host text q Contains = true ->
  includes (toLowerCase host text) (toLowerCase host q) = true.
Proof.
  unfold matchByType, normalize. by destruct (falsy (toLowerCase host q)).
Qed.

(** Inside [searchDocuments] the candidates have passed the match predicate
    for the query they are ranked for. In mode [contains] the engine at no
    tolerated error then keeps every one of them: both lower-case the whole
    field and look for the lower-cased query in it. *)
Lemma exactFuse_keeps_contains_candidates (host : Host) (backend : Backend)
    (docs : list Doc) (q : JSString) (searchField : SearchField) :
  exactFuse host (candidatesOf host backend docs q Contains searchField) q
  = candidatesOf host backend docs q Contains searchField.
Proof.
  unfold exactFuse, candidatesOf. apply filter_filter_implies.
  intros doc. unfold isCandidate, fuseKeys. cbn [existsb].
  destruct searchField.
  - intros H.
    apply orb_true_iff in H as [H|H];
      [apply orb_true_iff in H as [H|H];
         [apply orb_true_iff in H as [H|H]|]|];
      apply matchByType_contains_includes in H; rewrite H;
      by rewrite ?orb_true_r.
  - intros H%matchByType_contains_includes. by rewrite H.
  - intros H%matchByType_contains_includes. rewrite H. by rewrite ?orb_true_r.
  - intros H%matchByType_contains_includes. rewrite H. by rewrite ?orb_true_r.
Qed.

(** C8, as stated, fails in two ways. A query of punctuation is not
    blank, each of the 150 records of the corpus passes the filter for it,
    and the search returns nothing. And for the small sigma, in mode
    [startsWith], 150 records pass the filter, 149 of them with the text
    U+0391 [.] U+03A3, in which the engine finds no hit, and the search
    returns the one record that is a hit. *)
Lemma matching_records_beyond_the_results :
  (falsy (trim (js "?!")) = false
   /\ length (candidatesOf latinHost
                (offlineBlobs (replicate 150 (namedDoc "a?!")))
                (replicate 150 (namedDoc "a?!")) (trim (js "?!")) Contains
                FieldAll) = 150%nat
   /\ searchDocuments latinHost (exactFuse latinHost)
        (offlineBlobs (replicate 150 (namedDoc "a?!"))) (js "?!") Contains
        FieldAll = Resolved [])
  /\ (hasAlphaNum greekHost (trim [0x3C3]) = true
      /\ length (candidatesOf greekHost
                   (offlineBlobs (replicate 149 sigmaAfterStop ++ [sigmaAlone]))
                   (replicate 149 sigmaAfterStop ++ [sigmaAlone])
                   (trim [0x3C3]) StartsWith FieldContent) = 150%nat
      /\ searchDocuments greekHost (exactFuse greekHost)
           (offlineBlobs (replicate 149 sigmaAfterStop ++ [sigmaAlone]))
           [0x3C3] StartsWith FieldContent
         = Resolved [enrich greekHost [0x3C3] StartsWith sigmaAlone]).
Proof. repeat split; vm_compute; reflexivity. Qed.

(** ** Code points and trimming *)

Lemma codePoints_rect2 (P : JSString -> Prop) :
  P [] ->
  (forall u, P [u]) ->
  (forall u v rest,
     isHighSurrogate u && isLowSurrogate v = true ->
     P rest -> P (u :: v :: rest)) ->
  (forall u v rest,
     isHighSurrogate u && isLowSurrogate v = false ->
     P (v :: rest) -> P (u :: v :: rest)) ->
  forall s, P s.
Proof.
  intros Hnil Hone Hpair Hsingle s.
  assert (H : P s /\ forall u, P (u :: s)); [|by destruct H].
  induction s as [|v rest [IH1 IH2]]; [by split|].
  split; [apply IH2|]. intros u.
  destruct (isHighSurrogate u && isLowSurrogate v) eqn:E.
  - by apply Hpair.
  - by apply Hsingle.
Qed.

Lemma codePoints_pair (u v : Z) (rest : JSString) :
  isHighSurrogate u && isLowSurrogate v = true ->
  codePoints (u :: v :: rest) = (pairValue u v, [u; v]) :: codePoints rest.
Proof. intros H. simpl. by rewrite H. Qed.

Lemma codePoints_single (u v : Z) (rest : JSString) :
  isHighSurrogate u && isLowSurrogate v = false ->
  codePoints (u :: v :: rest) = (u, [u]) :: codePoints (v :: rest).
Proof. intros H. simpl. by rewrite H. Qed.

Lemma codePoints_cons_not_high (u : Z) (s : JSString) :
  isHighSurrogate u = false -> codePoints (u :: s) = (u, [u]) :: codePoints s.
Proof.
  intros H. destruct s as [|v s]; [done|].
  apply codePoints_single. by rewrite H.
Qed.

Lemma codePoints_app (t w : JSString) :
  (forall c w', w = c :: w' -> isLowSurrogate c = false) ->
  codePoints (t ++ w) = codePoints t ++ codePoints w.
Proof.
  intros Hw. induction t as [|u|u v rest E IH|u v rest E IH] using codePoints_rect2.
  - done.
  - destruct w as [|c w']; [done|].
    change ([u] ++ c :: w') with (u :: c :: w').
    rewrite codePoints_single; [done|].
    rewrite (Hw c w' eq_refl). apply andb_false_r.
  - change ((u :: v :: rest) ++ w) with (u :: v :: (rest ++ w)).
    rewrite !codePoints_pair by done. by rewrite IH.
  - change ((u :: v :: rest) ++ w) with (u :: v :: (rest ++ w)).
    rewrite !codePoints_single by done.
    change (v :: rest ++ w) with ((v :: rest) ++ w). by rewrite IH.
Qed.

Lemma spell_cons (cp : Z * JSString) (cps : list (Z * JSString)) :
  spell (cp :: cps) = snd cp ++ spell cps.
Proof. reflexivity. Qed.

Lemma spell_app (cps1 cps2 : list (Z * JSString)) :
  spell (cps1 ++ cps2) = spell cps1 ++ spell cps2.
Proof. unfold spell. by rewrite fmap_app, concat_app. Qed.

Lemma spell_codePoints (s : JSString) : spell (codePoints s) = s.
Proof.
  induction s as [|u|u v rest E IH|u v rest E IH] using codePoints_rect2.
  - done.
  - done.
  - rewrite codePoints_pair, spell_cons, IH by done. done.
  - rewrite codePoints_single, spell_cons, IH by done. done.
Qed.

Lemma whiteSpace_not_surrogate (c : Z) :
  isWhiteSpace c = true ->
  isHighSurrogate c = false /\ isLowSurrogate c = false.
Proof.
  unfold isWhiteSpace, isHighSurrogate, isLowSurrogate.
  rewrite !orb_true_iff, !andb_true_iff, !andb_false_iff.
  rewrite !Z.leb_le, !Z.eqb_eq, !Z.leb_gt. lia.
Qed.

Lemma takeWhile_dropWhile {A} (p : A -> bool) (l : list A) :
  takeWhile p l ++ dropWhile p l = l.
Proof.
  induction l as [|x l IH]; [done|]. simpl.
  destruct (p x); [simpl; by rewrite IH | done].
Qed.

Lemma takeWhile_Forall {A} (p : A -> bool) (l : list A) :
  Forall (fun x => p x = true) (takeWhile p l).
Proof.
  induction l as [|x l IH]; simpl; [constructor|].
  destruct (p x) eqn:E; by constructor.
Qed.

Lemma dropWhileEnd_split {A} (p : A -> bool) (l : list A) :
  exists w, l = dropWhileEnd p l ++ w /\ Forall (fun x => p x = true) w.
Proof.
  exists (reverse (takeWhile p (reverse l))). split.
  - unfold dropWhileEnd. rewrite <- reverse_app, takeWhile_dropWhile.
    by rewrite reverse_involutive.
  - apply Forall_reverse, takeWhile_Forall.
Qed.

Lemma trim_split (s : JSString) :
  exists w1 w2,
    s = w1 ++ trim s ++ w2
    /\ Forall (fun c => isWhiteSpace c = true) w1
    /\ Forall (fun c => isWhiteSpace c = true) w2.
Proof.
  destruct (dropWhileEnd_split isWhiteSpace (dropWhile isWhiteSpace s))
    as (w2 & E & H2).
  exists (takeWhile isWhiteSpace s), w2. repeat split.
  - unfold trim. rewrite <- E. by rewrite takeWhile_dropWhile.
  - apply takeWhile_Forall.
  - exact H2.
Qed.

Lemma codePoints_whiteSpace_app (w s : JSString) :
  Forall (fun c => isWhiteSpace c = true) w ->
  codePoints (w ++ s) = ((fun c => (c, [c])) <$> w) ++ codePoints s.
Proof.
  induction 1 as [|c w Hc _ IH]; [done|].
  change ((c :: w) ++ s) with (c :: (w ++ s)).
  rewrite codePoints_cons_not_high by (by apply whiteSpace_not_surrogate).
  by rewrite IH.
Qed.

Lemma hasAlphaNum_trim (host : Host) (s : JSString) :
  hasAlphaNum host (trim s) = true -> hasAlphaNum host s = true.
Proof.
  destruct (trim_split s) as (w1 & w2 & E & H1 & H2).
  unfold hasAlphaNum. intros H. rewrite E at 1.
  rewrite codePoints_whiteSpace_app by done.
  rewrite codePoints_app.
  - rewrite !existsb_app, H. by rewrite orb_true_r.
  - intros c w' ->. inversion H2 as [|? ? Hc _]; subst.
    by apply (whiteSpace_not_surrogate c).
Qed.

(** C3. For every backend, match mode and field scope, a query that is
    blank (empty once trimmed) or has no letter and no digit resolves to the
    empty sequence; the corpus is not even fetched. *)
Theorem searchDocuments_rejects_blank_query (host : Host) (fuse : Ranker)
    (backend : Backend) (searchQuery : JSString) (searchType : MatchType)
    (searchField : SearchField) :
  trim searchQuery = [] \/ hasAlphaNum host searchQuery = false ->
  searchDocuments host fuse backend searchQuery searchType searchField
    = Resolved [].
Proof.
  intros H. unfold searchDocuments.
  destruct (trim searchQuery) as [|c q] eqn:E; [done|]. simpl.
  destruct (hasAlphaNum host (c :: q)) eqn:Han; [|done].
  destruct H as [?|Hno]; [done|].
  rewrite <- E in Han. apply hasAlphaNum_trim in Han. congruence.
Qed.

(** ** The match predicate *)

Lemma startsWith_spec (s n : JSString) :
  startsWith s n = true <-> exists post, s = n ++ post.
Proof.
  revert s. induction n as [|y n IH]; intros s; simpl.
  - split; [by exists s | done].
  - destruct s as [|x s].
    + split; [done | by intros (post & ?)].
    + rewrite andb_true_iff, Z.eqb_eq, IH. split.
      * intros (-> & post & ->). by exists post.
      * intros (post & [= -> ->]). split; [done | by exists post].
Qed.

Lemma indexOfFrom_spec (n s : JSString) (pos : Z) :
  0 <= pos ->
  (0 <= indexOfFrom n pos s <-> exists pre post, s = pre ++ n ++ post).
Proof.
  revert pos. induction s as [|c s IH]; intros pos Hpos.
  - simpl. destruct (startsWith [] n) eqn:E.
    + apply startsWith_spec in E as (post & E).
      split; [|done]. intros _. by exists [], post.
    + split; [lia|]. intros (pre & post & E').
      destruct pre, n; try discriminate.
  - cbn [indexOfFrom]. destruct (startsWith (c :: s) n) eqn:E.
    + apply startsWith_spec in E as (post & E).
      split; [|done]. intros _. by exists [], post.
    + rewrite IH by lia. split.
      * intros (pre & post & ->). by exists (c :: pre), post.
      * intros (pre & post & E'). destruct pre as [|c' pre].
        -- assert (startsWith (c :: s) n = true); [|congruence].
           apply startsWith_spec. by exists post.
        -- injection E' as -> ->. by exists pre, post.
Qed.

Lemma includes_spec (s n : JSString) :
  includes s n = true <-> exists pre post, s = pre ++ n ++ post.
Proof.
  unfold includes, indexOf. rewrite Z.leb_le. by apply indexOfFrom_spec.
Qed.

Lemma normalize_empty_iff (host : Host) (q : JSString) :
  normalize host q = [] <-> q = [].
Proof.
  unfold normalize. split.
  - apply toLowerCase_nonempty.
  - intros ->. apply toLowerCase_nil.
Qed.

(** C4, as amended. In mode [contains] the predicate is true exactly when
    the query is not empty and the lower-cased text contains the lower-cased
    query; the empty query matches in no mode. The predicate itself does
    not trim: a query of white space is matched like any other. *)
Theorem matchByType_contains_iff (host : Host) (text q : JSString) :
  (matchByType host text q Contains = true
   <-> q <> []
       /\ exists pre post,
            normalize host text = pre ++ normalize host q ++ post)
  /\ (forall text' type, matchByType host text' [] type = false).
Proof.
  split.
  - unfold matchByType.
    destruct (normalize host q) as [|c n] eqn:E.
    + apply normalize_empty_iff in E as ->. simpl. split; [done | by intros []].
    + simpl. rewrite includes_spec. split.
      * intros H. split; [|done]. intros ->.
        by rewrite (proj2 (normalize_empty_iff host [])) in E.
      * by intros [_ H].
  - intros text' type. unfold matchByType.
    by rewrite (proj2 (normalize_empty_iff host [])).
Qed.

(** C4, as stated, fails: the query of one space is blank, and it matches
    the text [a b] in mode [contains]. *)
Lemma blank_query_matches :
  trim (js " ") = []
  /\ matchByType latinHost (js "a b") (js " ") Contains = true.
Proof. split; vm_compute; reflexivity. Qed.

Lemma basicLatin_check (s : JSString) :
  forallb (fun c => (0 <=? c) && (c <? 128)) s = true -> Forall isBasicLatin s.
Proof.
  rewrite forallb_forall, Forall_forall. intros H c Hc.
  apply H in Hc. unfold isBasicLatin. lia.
Qed.

Lemma codePoints_basicLatin (s : JSString) :
  Forall isBasicLatin s -> codePoints s = (fun c => (c, [c])) <$> s.
Proof.
  induction 1 as [|c s Hc _ IH]; [done|].
  rewrite codePoints_cons_not_high, IH; [done|].
  unfold isBasicLatin in Hc. unfold isHighSurrogate. lia.
Qed.

Lemma dropWhile_ext_Forall {A} (p p' : A -> bool) (l : list A) :
  Forall (fun x => p x = p' x) l -> dropWhile p l = dropWhile p' l.
Proof.
  induction 1 as [|x l Hx _ IH]; [done|]. simpl. by rewrite Hx, IH.
Qed.

Lemma isTrimClass_basicLatin (host : Host) (s : JSString) :
  Forall isBasicLatin s ->
  Forall (fun cp => isTrimClass host cp = isTrimClass latinHost cp)
    (codePoints s).
Proof.
  intros H. rewrite (codePoints_basicLatin s H). apply Forall_fmap.
  induction H as [|c s Hc _ IH]; constructor; [|done].
  unfold isTrimClass. simpl. by rewrite isPunct_ascii.
Qed.

Lemma trimEndPunct_basicLatin (host : Host) (s : JSString) :
  Forall isBasicLatin s -> trimEndPunct host s = trimEndPunct latinHost s.
Proof.
  intros H. unfold trimEndPunct, dropWhileEnd. do 2 f_equal.
  apply dropWhile_ext_Forall, Forall_reverse. by apply isTrimClass_basicLatin.
Qed.

Lemma trimStartPunct_basicLatin (host : Host) (s : JSString) :
  Forall isBasicLatin s -> trimStartPunct host s = trimStartPunct latinHost s.
Proof.
  intros H. unfold trimStartPunct. f_equal.
  apply dropWhile_ext_Forall. by apply isTrimClass_basicLatin.
Qed.

Lemma normalize_basicLatin (host : Host) (s : JSString) :
  Forall isBasicLatin s -> normalize host s = asciiLower <$> s.
Proof. apply toLowerCase_ascii. Qed.

(** C5. In mode [endsWith] the predicate is true exactly when the query is
    not empty and some sentence, its trailing punctuation and white space
    stripped, ends with the query up to case. So whenever the sentence
    [Goodbye now.] is among the sentences of a text, the text matches the
    query [now]: the period is stripped before the comparison. *)
Theorem endsWith_ignores_trailing_period (host : Host) (text : JSString)
    (s : Sentence) :
  s ∈ splitIntoSentences text ->
  s_text s = js "Goodbye now." ->
  matchByType host text (js "now") EndsWith = true
  /\ (forall q,
        matchByType host text q EndsWith = true
        <-> q <> []
            /\ exists s',
                 s' ∈ splitIntoSentences text
                 /\ endsWith (normalize host (trimEndPunct host (s_text s')))
                      (normalize host q) = true).
Proof.
  intros Hin Htext.
  assert (Hiff : forall q,
    matchByType host text q EndsWith = true
    <-> q <> []
        /\ exists s',
             s' ∈ splitIntoSentences text
             /\ endsWith (normalize host (trimEndPunct host (s_text s')))
                  (normalize host q) = true).
  { intros q. unfold matchByType.
    destruct (normalize host q) as [|c n] eqn:E.
    - apply normalize_empty_iff in E as ->. simpl.
      split; [done | by intros []].
    - simpl. rewrite existsb_exists. split.
      + intros (s' & Hs' & Hm). split.
        * intros ->. by rewrite (proj2 (normalize_empty_iff host [])) in E.
        * exists s'. split; [by apply list_elem_of_In | done].
      + intros (_ & s' & Hs' & Hm). exists s'.
        split; [by apply list_elem_of_In | done]. }
  split; [|exact Hiff].
  apply Hiff. split; [done|]. exists s. split; [done|].
  rewrite Htext, (trimEndPunct_basicLatin host)
    by (apply basicLatin_check; reflexivity).
  change (trimEndPunct latinHost (js "Goodbye now.")) with (js "Goodbye now").
  rewrite !normalize_basicLatin by (apply basicLatin_check; reflexivity).
  reflexivity.
Qed.

(** ** The highlight renderer: a second pass *)

Lemma length_ind {A} (P : list A -> Prop) :
  (forall l, (forall l', (length l' < length l)%nat -> P l') -> P l) ->
  forall l, P l.
Proof.
  intros H l. remember (length l) as n eqn:E. revert l E.
  induction n as [n IH] using lt_wf_ind. intros l ->.
  apply H. intros l' Hl. by apply (IH (length l')).
Qed.

Lemma codePointAt_width (s : JSString) :
  snd (codePointAt s) = 1%nat \/ snd (codePointAt s) = 2%nat.
Proof.
  destruct s as [|u [|v s]]; unfold codePointAt; simpl; auto.
  destruct (isHighSurrogate u && isLowSurrogate v); auto.
Qed.

Lemma codePointAt_width_le (u : Z) (s : JSString) :
  (snd (codePointAt (u :: s)) <= length (u :: s))%nat.
Proof.
  destruct s as [|v s]; unfold codePointAt; simpl; [lia|].
  destruct (isHighSurrogate u && isLowSurrogate v); simpl; lia.
Qed.

Lemma codePointAt_width_one (u : Z) (s : JSString) :
  snd (codePointAt (u :: s)) = 1%nat -> codePointAt (u :: s) = (u, 1%nat).
Proof.
  destruct s as [|v s]; [done|]. unfold codePointAt.
  by destruct (isHighSurrogate u && isLowSurrogate v).
Qed.

Lemma codePointAt_not_pair (u : Z) (s : JSString) :
  (forall c w, s = c :: w -> isLowSurrogate c = false) ->
  codePointAt (u :: s) = (u, 1%nat).
Proof.
  intros H. destruct s as [|v s]; [done|]. unfold codePointAt.
  rewrite (H v s eq_refl). by rewrite andb_false_r.
Qed.

Lemma markOpen_length : length markOpen = 31%nat.
Proof. reflexivity. Qed.

Lemma markClose_length : length markClose = 7%nat.
Proof. reflexivity. Qed.

Lemma markOpen_split : exists front, markOpen = front ++ [62].
Proof. by exists (take 30 markOpen). Qed.

Lemma markClose_head : exists rest, markClose = 60 :: rest.
Proof. by eexists. Qed.

Section HighlightFacts.

Context (host : Host).

Lemma replaceMatches_cons (pat : list Z) (u : Z) (s' : JSString) :
  replaceMatches host pat (u :: s')
  = match matchHere host pat (u :: s') with
    | Some (S k) =>
        (markOpen ++ take (S k) (u :: s') ++ markClose)
          ++ replaceMatches host pat (drop (S k) (u :: s'))
    | _ =>
        take (snd (codePointAt (u :: s'))) (u :: s')
          ++ replaceMatches host pat (drop (snd (codePointAt (u :: s'))) (u :: s'))
    end.
Proof.
  rewrite replaceMatches_equation_2.
  destruct (matchHere host pat (u :: s')) as [[|k]|]; reflexivity.
Qed.

Lemma matchHere_cons (p : Z) (pat : list Z) (u : Z) (s : JSString) :
  matchHere host (p :: pat) (u :: s)
  = if canonicalize host (fst (codePointAt (u :: s))) =? canonicalize host p
    then (fun k => (snd (codePointAt (u :: s)) + k)%nat)
           <$> matchHere host pat (drop (snd (codePointAt (u :: s))) (u :: s))
    else None.
Proof. reflexivity. Qed.

Lemma matchHere_le (pat : list Z) (s : JSString) (n : nat) :
  matchHere host pat s = Some n -> (n <= length s)%nat.
Proof.
  revert s n. induction pat as [|p pat IH]; intros s n.
  - intros [= <-]. lia.
  - destruct s as [|u s]; [done|]. rewrite matchHere_cons.
    destruct (_ =? _); [|done].
    destruct (matchHere host pat _) as [k|] eqn:E; [|done].
    intros H. injection H as <-. apply IH in E. rewrite length_drop in E.
    pose proof (codePointAt_width_le u s). lia.
Qed.

Lemma matchHere_cons_pos (p : Z) (pat : list Z) (s : JSString) (n : nat) :
  matchHere host (p :: pat) s = Some n -> (1 <= n)%nat.
Proof.
  destruct s as [|u s]; [done|]. rewrite matchHere_cons.
  destruct (_ =? _); [|done].
  destruct (matchHere host pat _) as [k|]; [|done].
  intros H. injection H as <-. destruct (codePointAt_width (u :: s)); lia.
Qed.

(** A match reads nothing past its last code point but the code unit that
    follows, and that one only to tell a surrogate pair. *)
Lemma matchHere_change_rest (pat : list Z) (m r r' : JSString) :
  matchHere host pat (m ++ r) = Some (length m) ->
  (forall c w, r' = c :: w -> isLowSurrogate c = false) ->
  matchHere host pat (m ++ r') = Some (length m).
Proof.
  intros H Hr'. revert m H. induction pat as [|p pat IH]; intros m H.
  - injection H as H. by destruct m.
  - destruct m as [|u [|v m]].
    + apply matchHere_cons_pos in H. simpl in H. lia.
    + change ([u] ++ r) with (u :: r) in H.
      change ([u] ++ r') with (u :: r').
      rewrite matchHere_cons in *.
      rewrite (codePointAt_not_pair u r' Hr'). cbn [fst snd].
      destruct (codePointAt_width (u :: r)) as [W|W].
      * rewrite (codePointAt_width_one u r W) in H. cbn [fst snd] in H.
        destruct (_ =? _); [|done].
        change (drop 1 (u :: r)) with ([] ++ r) in H.
        change (drop 1 (u :: r')) with ([] ++ r').
        destruct (matchHere host pat ([] ++ r)) as [k|] eqn:E; [|done].
        injection H as H. assert (k = 0%nat) as -> by (simpl in H; lia).
        by rewrite (IH [] E).
      * rewrite W in H. destruct (_ =? _) in H; [|done].
        destruct (matchHere host pat _) as [k|] in H; [|done].
        injection H as H. simpl in H. lia.
    + change ((u :: v :: m) ++ r) with (u :: v :: (m ++ r)) in H.
      change ((u :: v :: m) ++ r') with (u :: v :: (m ++ r')).
      rewrite matchHere_cons in *.
      change (codePointAt (u :: v :: m ++ r'))
        with (codePointAt (u :: v :: m ++ r)).
      destruct (_ =? _); [|done].
      destruct (codePointAt_width (u :: v :: m ++ r)) as [W|W];
        rewrite W in *.
      * change (drop 1 (u :: v :: m ++ r)) with ((v :: m) ++ r) in H.
        change (drop 1 (u :: v :: m ++ r')) with ((v :: m) ++ r').
        destruct (matchHere host pat ((v :: m) ++ r)) as [k|] eqn:E; [|done].
        injection H as H.
        assert (k = length (v :: m)) as -> by (simpl in H |- *; lia).
        by rewrite (IH (v :: m) E).
      * change (drop 2 (u :: v :: m ++ r)) with (m ++ r) in H.
        change (drop 2 (u :: v :: m ++ r')) with (m ++ r').
        destruct (matchHere host pat (m ++ r)) as [k|] eqn:E; [|done].
        injection H as H.
        assert (k = length m) as -> by (simpl in H; lia).
        by rewrite (IH m E).
Qed.

End HighlightFacts.





Lemma compilePattern_cons_plain (c : Z) (s : JSString) :
  isHighSurrogate c = false -> c <> 92 ->
  compilePattern (c :: s) = c :: compilePattern s.
Proof.
  intros Hc Hne. unfold compilePattern.
  rewrite codePoints_cons_not_high by done. simpl.
  by destruct (Z.eqb_spec c 92).
Qed.




Section SecondPass.

Context (host : Host) (pat : list Z).

Lemma replaceMatches_fixed_or_longer (s : JSString) :
  replaceMatches host pat s = s
  \/ (length s < length (replaceMatches host pat s))%nat.
Proof.
  induction s as [s IH] using length_ind.
  destruct s as [|u s']; [by left|].
  rewrite replaceMatches_cons.
  assert (Hadv : forall w, (1 <= w)%nat ->
    take w (u :: s') ++ replaceMatches host pat (drop w (u :: s')) = u :: s'
    \/ (length (u :: s')
        < length (take w (u :: s')
                    ++ replaceMatches host pat (drop w (u :: s'))))%nat).
  { intros w Hw.
    destruct (IH (drop w (u :: s'))) as [E|E].
    - rewrite length_drop. simpl. lia.
    - left. rewrite E. apply take_drop.
    - right. rewrite length_app. rewrite length_drop in E.
      rewrite length_take. lia. }
  assert (Hw : (1 <= snd (codePointAt (u :: s')))%nat)
    by (destruct (codePointAt_width (u :: s')); lia).
  destruct (matchHere host pat (u :: s')) as [[|k]|] eqn:E; [by apply Hadv| |by apply Hadv].
  right. apply matchHere_le in E.
  destruct (IH (drop (S k) (u :: s'))) as [E'|E'].
  - rewrite length_drop. simpl. lia.
  - rewrite E'.
    rewrite !length_app, length_take, length_drop, markOpen_length. lia.
  - rewrite !length_app, length_take, markOpen_length.
    rewrite length_drop in E'. lia.
Qed.

Lemma replaceMatches_matched (z : JSString) (k : nat) :
  matchHere host pat z = Some (S k) -> replaceMatches host pat z <> z.
Proof.
  intros H E. destruct z as [|u z'].
  - apply matchHere_le in H. simpl in H. lia.
  - rewrite replaceMatches_cons, H in E. apply (f_equal length) in E.
    pose proof (matchHere_le _ _ _ _ H) as Hle.
    destruct (replaceMatches_fixed_or_longer (drop (S k) (u :: z'))) as [E'|E'].
    + rewrite E' in E.
      rewrite !length_app, length_take, length_drop, markOpen_length in E. lia.
    + rewrite !length_app, length_take, markOpen_length in E.
      rewrite length_drop in E'. lia.
Qed.

(** Where a pass changed the text it left a wrapped match: the closing
    angle bracket of an opening marker, followed by text that the pattern
    matches. *)
Lemma replaceMatches_leaves_match (s : JSString) :
  replaceMatches host pat s <> s ->
  exists a z k,
    replaceMatches host pat s = a ++ 62 :: z
    /\ matchHere host pat z = Some (S k).
Proof.
  induction s as [s IH] using length_ind.
  destruct s as [|u s']; [by rewrite replaceMatches_equation_1|].
  rewrite replaceMatches_cons.
  assert (Hadv : forall w, (1 <= w)%nat ->
    take w (u :: s') ++ replaceMatches host pat (drop w (u :: s')) <> u :: s' ->
    exists a z k,
      take w (u :: s') ++ replaceMatches host pat (drop w (u :: s'))
        = a ++ 62 :: z
      /\ matchHere host pat z = Some (S k)).
  { intros w Hw Hne.
    destruct (IH (drop w (u :: s'))) as (a & z & k & E & Hm).
    - rewrite length_drop. simpl. lia.
    - intros E. apply Hne. rewrite E. apply take_drop.
    - exists (take w (u :: s') ++ a), z, k. split; [|done].
      by rewrite E, app_assoc. }
  assert (Hw : (1 <= snd (codePointAt (u :: s')))%nat)
    by (destruct (codePointAt_width (u :: s')); lia).
  destruct (matchHere host pat (u :: s')) as [[|k]|] eqn:E;
    [by apply Hadv| |by apply Hadv].
  intros _. destruct markOpen_split as (front & ->).
  destruct markClose_head as (rest & ->).
  exists front,
    (take (S k) (u :: s')
       ++ (60 :: rest) ++ replaceMatches host pat (drop (S k) (u :: s'))), k.
  split; [by rewrite <- !app_assoc|].
  pose proof (matchHere_le _ _ _ _ E) as Hle.
  assert (Hlen : length (take (S k) (u :: s')) = S k)
    by (rewrite length_take; lia).
  pose proof (matchHere_change_rest host pat (take (S k) (u :: s'))
                (drop (S k) (u :: s'))
                ((60 :: rest) ++ replaceMatches host pat (drop (S k) (u :: s'))))
    as Hch.
  rewrite take_drop, Hlen in Hch. apply Hch; [done|].
  by intros c w [= <- _].
Qed.

(** A match that starts right after a code unit that is no high surrogate is
    not skipped: the scan reaches it, or finds a match before it. *)
Lemma replaceMatches_reaches_match (a : JSString) (g : Z) (z : JSString)
    (k : nat) :
  isHighSurrogate g = false ->
  matchHere host pat z = Some (S k) ->
  replaceMatches host pat (a ++ g :: z) <> a ++ g :: z.
Proof.
  intros Hg Hz. induction a as [a IH] using length_ind.
  assert (Hstep : forall u s' w,
    a ++ g :: z = u :: s' ->
    snd (codePointAt (u :: s')) = w ->
    replaceMatches host pat (drop w (u :: s')) <> drop w (u :: s') ->
    replaceMatches host pat (u :: s') <> u :: s').
  { intros u s' w Es Ew Hne.
    destruct (matchHere host pat (u :: s')) as [[|k']|] eqn:E.
    - rewrite replaceMatches_cons, E, Ew. intros E'. apply Hne.
      rewrite <- (take_drop w (u :: s')) in E' at 3.
      by apply app_inv_head in E'.
    - by eapply replaceMatches_matched.
    - rewrite replaceMatches_cons, E, Ew. intros E'. apply Hne.
      rewrite <- (take_drop w (u :: s')) in E' at 3.
      by apply app_inv_head in E'. }
  destruct a as [|u [|v a']].
  - apply (Hstep g z 1%nat); [done| |].
    + destruct z as [|c z']; [done|]. unfold codePointAt. by rewrite Hg.
    + by eapply replaceMatches_matched.
  - change ([u] ++ g :: z) with (u :: g :: z).
    destruct (codePointAt_width (u :: g :: z)) as [W|W].
    + apply (Hstep u (g :: z) 1%nat); [done|done|].
      apply (IH []). simpl. lia.
    + apply (Hstep u (g :: z) 2%nat); [done|done|].
      by eapply replaceMatches_matched.
  - change ((u :: v :: a') ++ g :: z) with (u :: v :: (a' ++ g :: z)).
    destruct (codePointAt_width (u :: v :: a' ++ g :: z)) as [W|W].
    + apply (Hstep u (v :: a' ++ g :: z) 1%nat); [done|done|].
      apply (IH (v :: a')). simpl. lia.
    + apply (Hstep u (v :: a' ++ g :: z) 2%nat); [done|done|].
      apply (IH a'). simpl. lia.
Qed.

Lemma replaceMatches_second_pass (s : JSString) :
  replaceMatches host pat (replaceMatches host pat s) = replaceMatches host pat s
  <-> replaceMatches host pat s = s.
Proof.
  split; [|intros E; by rewrite !E].
  intros H. destruct (decide (replaceMatches host pat s = s)) as [|Hne]; [done|].
  destruct (replaceMatches_leaves_match s Hne) as (a & z & k & E & Hm).
  rewrite E in H. by apply (replaceMatches_reaches_match a 62 z k) in H.
Qed.

End SecondPass.

(** C9, as amended. A second pass of [highlightAll] leaves the highlighted
    text as it is exactly when the first pass wrapped nothing. Whenever the
    first pass wrapped a match, the second pass wraps again and its output is
    longer, whether or not the query occurs in the marker syntax. *)
Theorem highlightAll_second_pass (host : Host) (text q : JSString) :
  (highlightAll host (highlightAll host text q) q = highlightAll host text q
   <-> highlightAll host text q = text)
  /\ (highlightAll host text q <> text ->
      (length (highlightAll host text q)
       < length (highlightAll host (highlightAll host text q) q))%nat).
Proof.
  unfold highlightAll.
  destruct (falsy text || falsy q) eqn:E; [by rewrite E|].
  apply orb_false_iff in E as [Et Eq].
  set (pat := compilePattern (escapeRegExp q)).
  assert (Hne : falsy (replaceMatches host pat text) = false).
  { destruct (replaceMatches_fixed_or_longer host pat text) as [->|H]; [done|].
    destruct (replaceMatches host pat text); [simpl in H; lia | done]. }
  rewrite Hne, Eq. simpl. split.
  - apply replaceMatches_second_pass.
  - intros H.
    destruct (replaceMatches_fixed_or_longer host pat
                (replaceMatches host pat text)) as [E|E]; [|done].
    exfalso. apply H. by apply replaceMatches_second_pass.
Qed.

(** C9, as stated, fails. The query [b] occurs in neither marker, and the
    second pass over the once-highlighted [abc] wraps the match a second
    time. *)
Lemma highlightAll_wraps_twice :
  highlightAll latinHost markOpen (js "b") = markOpen
  /\ highlightAll latinHost markClose (js "b") = markClose
  /\ highlightAll latinHost (js "abc") (js "b")
     = js "a" ++ markOpen ++ js "b" ++ markClose ++ js "c"
  /\ highlightAll latinHost (highlightAll latinHost (js "abc") (js "b")) (js "b")
     = js "a" ++ markOpen ++ markOpen ++ js "b" ++ markClose ++ markClose
         ++ js "c"
  /\ highlightAll latinHost (highlightAll latinHost (js "abc") (js "b")) (js "b")
     <> highlightAll latinHost (js "abc") (js "b").
Proof.
  repeat split; try (vm_compute; reflexivity).
  vm_compute. discriminate.
Qed.

(** ** Sentences and trimmed sentences are pieces of the text *)

Lemma sentencesFrom_substring (skip : nat) (pos : Z) (s : JSString)
    (sentence : Sentence) :
  sentence ∈ sentencesFrom skip pos s ->
  exists pre post,
    s = pre ++ s_text sentence ++ post /\ s_start sentence = pos + len pre.
Proof.
  revert skip pos. induction s as [|c s IH]; intros skip pos Hin.
  - by apply elem_of_nil in Hin.
  - assert (Hrest : forall k,
      sentence ∈ sentencesFrom k (pos + 1) s ->
      exists pre post,
        c :: s = pre ++ s_text sentence ++ post
        /\ s_start sentence = pos + len pre).
    { intros k Hk. destruct (IH _ _ Hk) as (pre & post & -> & E).
      exists (c :: pre), post. split; [done|].
      rewrite E. unfold len. simpl length. lia. }
    cbn [sentencesFrom] in Hin. destruct skip as [|k]; [|by eapply Hrest].
    destruct (sentenceAt (c :: s)) as [[n1 total]|]; [|by eapply Hrest].
    destruct (len (trim (take n1 (c :: s))) =? 0); [by eapply Hrest|].
    apply elem_of_cons in Hin as [->|Hin]; [|by eapply Hrest].
    exists [], (drop n1 (c :: s)). simpl s_text. simpl s_start. split.
    + by rewrite app_nil_l, take_drop.
    + unfold len. simpl. lia.
Qed.

Lemma splitIntoSentences_substring (text : JSString) (sentence : Sentence) :
  sentence ∈ splitIntoSentences text ->
  exists pre post,
    text = pre ++ s_text sentence ++ post /\ s_start sentence = len pre.
Proof.
  unfold splitIntoSentences.
  destruct ((length (sentencesFrom 0 0 text) =? 0)%nat && negb (falsy text)).
  - intros ->%list_elem_of_singleton. exists [], []. simpl.
    by rewrite app_nil_r.
  - intros H. apply sentencesFrom_substring in H as (pre & post & E & Hs).
    exists pre, post. split; [done | lia].
Qed.

Lemma trimStartPunct_suffix (host : Host) (x : JSString) :
  exists removed, x = removed ++ trimStartPunct host x.
Proof.
  exists (spell (takeWhile (isTrimClass host) (codePoints x))).
  unfold trimStartPunct.
  by rewrite <- spell_app, takeWhile_dropWhile, spell_codePoints.
Qed.

Lemma trimEndPunct_prefix (host : Host) (x : JSString) :
  exists removed, x = trimEndPunct host x ++ removed.
Proof.
  destruct (dropWhileEnd_split (isTrimClass host) (codePoints x))
    as (w & E & _).
  exists (spell w). unfold trimEndPunct.
  by rewrite <- spell_app, <- E, spell_codePoints.
Qed.

Lemma startsWith_length (s n : JSString) :
  startsWith s n = true -> (length n <= length s)%nat.
Proof.
  intros (post & ->)%startsWith_spec. rewrite length_app. lia.
Qed.

Lemma endsWith_length (s n : JSString) :
  endsWith s n = true -> (length n <= length s)%nat.
Proof.
  unfold endsWith. intros H%startsWith_length.
  by rewrite !length_reverse in H.
Qed.

Lemma indexOfFrom_position (n s : JSString) (pos : Z) :
  0 <= pos ->
  0 <= indexOfFrom n pos s ->
  exists pre post, s = pre ++ n ++ post /\ indexOfFrom n pos s = pos + len pre.
Proof.
  revert pos. induction s as [|c s IH]; intros pos Hpos.
  - simpl. destruct (startsWith [] n) eqn:E; [|lia].
    apply startsWith_spec in E as (post & E). intros _.
    exists [], post. split; [done | unfold len; simpl; lia].
  - cbn [indexOfFrom]. destruct (startsWith (c :: s) n) eqn:E.
    + apply startsWith_spec in E as (post & E). intros _.
      exists [], post. split; [done | unfold len; simpl; lia].
    + intros H. destruct (IH (pos + 1)) as (pre & post & -> & Ei); [lia|done|].
      exists (c :: pre), post. split; [done|].
      rewrite Ei. unfold len. simpl length. lia.
Qed.

Lemma normalize_basicLatin_length (host : Host) (s : JSString) :
  Forall isBasicLatin s -> len (normalize host s) = len s.
Proof.
  intros H. rewrite normalize_basicLatin by done. unfold len.
  by rewrite length_fmap.
Qed.

(** ** The locator on Basic Latin text

    Where lower-casing keeps lengths, as it does on Basic Latin text, the
    locator and the predicate agree and the offset lies inside the text.
    The divergence shown further down needs a character whose lower case is
    longer than the character. *)

Section LocatorOnBasicLatin.

Context (host : Host) (text q : JSString).
Hypothesis Htext : Forall isBasicLatin text.
Hypothesis Hq : Forall isBasicLatin q.

Lemma sentence_in_text (s : Sentence) :
  s ∈ splitIntoSentences text ->
  0 <= s_start s
  /\ s_start s + len (s_text s) <= len text
  /\ Forall isBasicLatin (s_text s).
Proof.
  intros (pre & post & E & Hs)%splitIntoSentences_substring.
  rewrite E in Htext. apply Forall_app in Htext as [_ H].
  apply Forall_app in H as [H _]. repeat split; [| |done].
  - rewrite Hs. unfold len. lia.
  - rewrite Hs, E. unfold len. rewrite !length_app. lia.
Qed.

Lemma locateAnchored_spec (type : MatchType) (sentences : list Sentence) :
  (forall s, s ∈ sentences ->
     0 <= s_start s
     /\ s_start s + len (s_text s) <= len text
     /\ Forall isBasicLatin (s_text s)) ->
  (locateAnchored host type q (normalize host q) sentences = -1
   \/ 0 <= locateAnchored host type q (normalize host q) sentences
      /\ locateAnchored host type q (normalize host q) sentences + len q
         <= len text)
  /\ (0 <= locateAnchored host type q (normalize host q) sentences
      <-> match type with
          | StartsWith =>
              existsb (sentenceStartsWith host (normalize host q)) sentences
          | EndsWith =>
              existsb (sentenceEndsWith host (normalize host q)) sentences
          | _ => false
          end = true).
Proof.
  pose proof (normalize_basicLatin_length host q Hq) as Hlq.
  induction sentences as [|s rest IH]; intros Hgood.
  - simpl. split; [by left|]. destruct type; simpl; split; (lia || done).
  - destruct (Hgood s) as (Hs0 & Hs1 & Hs2); [by left|].
    assert (IH' := IH (fun s' Hs' => Hgood s' (list_elem_of_further _ _ _ Hs'))).
    destruct type; try exact IH'.
    + cbn [locateAnchored existsb]. unfold sentenceStartsWith at 1.
      destruct (trimStartPunct_suffix host (s_text s)) as (removed & Er).
      assert (Forall isBasicLatin (trimStartPunct host (s_text s))) as Hb.
      { rewrite Er in Hs2. by apply Forall_app in Hs2 as [_ ?]. }
      destruct (startsWith (normalize host (trimStartPunct host (s_text s)))
                  (normalize host q)) eqn:E; [|exact IH'].
      apply startsWith_length in E.
      pose proof (normalize_basicLatin_length host _ Hb) as Hl.
      assert (len (s_text s)
              = len removed + len (trimStartPunct host (s_text s))) as El.
      { rewrite Er at 1. unfold len. rewrite length_app. lia. }
      unfold len in *. split; [right|]; split; (lia || done).
    + cbn [locateAnchored existsb]. unfold sentenceEndsWith at 1.
      destruct (trimEndPunct_prefix host (s_text s)) as (removed & Er).
      assert (Forall isBasicLatin (trimEndPunct host (s_text s))) as Hb.
      { rewrite Er in Hs2. by apply Forall_app in Hs2 as [? _]. }
      destruct (endsWith (normalize host (trimEndPunct host (s_text s)))
                  (normalize host q)) eqn:E; [|exact IH'].
      apply endsWith_length in E.
      pose proof (normalize_basicLatin_length host _ Hb) as Hl.
      assert (len (s_text s)
              = len (trimEndPunct host (s_text s)) + len removed) as El.
      { rewrite Er at 1. unfold len. rewrite length_app. lia. }
      unfold len in *. split; [right|]; split; (lia || done).
Qed.

(** On Basic Latin text and queries the locator returns a match exactly
    when the predicate is true, and the match it returns lies in the text. *)
Lemma locator_agrees_on_basicLatin (type : MatchType) :
  (is_Some (computeMatchInfo host text q type)
   <-> matchByType host text q type = true)
  /\ (forall info,
        computeMatchInfo host text q type = Some info ->
        0 <= mi_index info /\ mi_index info + len q <= len text).
Proof.
  pose proof (normalize_basicLatin_length host q Hq) as Hlq.
  pose proof (normalize_basicLatin_length host text Htext) as Hlt.
  destruct (decide (text = [])) as [Et|Et].
  { rewrite Et, matchByType_empty_haystack. unfold computeMatchInfo. simpl.
    split; [|done]. split; [by intros [? ?] | done]. }
  destruct (decide (q = [])) as [Eq|Eq].
  { rewrite Eq. unfold computeMatchInfo, matchByType.
    rewrite (proj2 (normalize_empty_iff host []) eq_refl), orb_true_r. simpl.
    split; [|done]. split; [by intros [? ?] | done]. }
  assert (Hn : falsy (normalize host q) = false).
  { destruct (normalize host q) eqn:E; [|done].
    by apply normalize_empty_iff in E. }
  assert (Hf : falsy text || falsy q = false).
  { clear -Et Eq. by destruct text, q. }
  unfold computeMatchInfo, matchByType. rewrite Hf, Hn.
  destruct type.
  - unfold includes.
    destruct (Z.ltb_spec (indexOf (normalize host text) (normalize host q)) 0)
      as [Hneg|Hpos].
    + split; [|done]. split; [by intros [? ?]|]. rewrite Z.leb_le. lia.
    + split.
      * split; [intros _; by apply Z.leb_le | by eexists].
      * intros info [= <-]. simpl. split; [done|].
        destruct (indexOfFrom_position (normalize host q)
                    (normalize host text) 0) as (pre & post & E & Ei);
          [lia|done|].
        unfold indexOf. rewrite Ei. apply (f_equal len) in E.
        unfold len in *. rewrite !length_app in E. lia.
  - destruct (locateAnchored_spec StartsWith (splitIntoSentences text))
      as [Hb Hiff]; [apply sentence_in_text|].
    destruct (Z.ltb_spec
                (locateAnchored host StartsWith q (normalize host q)
                   (splitIntoSentences text)) 0) as [Hneg|Hpos].
    + split; [|done]. split; [by intros [? ?]|]. intros H%Hiff. lia.
    + split.
      * split; [intros _; by apply Hiff | by eexists].
      * intros info [= <-]. simpl. destruct Hb as [Hb|Hb]; [lia|done].
  - destruct (locateAnchored_spec EndsWith (splitIntoSentences text))
      as [Hb Hiff]; [apply sentence_in_text|].
    destruct (Z.ltb_spec
                (locateAnchored host EndsWith q (normalize host q)
                   (splitIntoSentences text)) 0) as [Hneg|Hpos].
    + split; [|done]. split; [by intros [? ?]|]. intros H%Hiff. lia.
    + split.
      * split; [intros _; by apply Hiff | by eexists].
      * intros info [= <-]. simpl. destruct Hb as [Hb|Hb]; [lia|done].
  - destruct (locateAnchored_spec OtherType (splitIntoSentences text))
      as [Hb Hiff]; [apply sentence_in_text|].
    destruct (Z.ltb_spec
                (locateAnchored host OtherType q (normalize host q)
                   (splitIntoSentences text)) 0) as [Hneg|Hpos].
    + split; [|done]. split; [by intros [? ?] | done].
    + apply Hiff in Hpos. done.
Qed.

End LocatorOnBasicLatin.

(** ** Stripping the markers

    Both markers begin with the only angle bracket that opens them. An
    occurrence of a marker in rendered text therefore cannot straddle the
    border between a piece of the text and a marker that was put in. *)

Lemma includes_false_app (a b M : JSString) :
  includes (a ++ b) M = false ->
  includes a M = false /\ includes b M = false.
Proof.
  intros H. split.
  - destruct (includes a M) eqn:E; [|done].
    apply includes_spec in E as (pre & post & ->).
    assert (includes ((pre ++ M ++ post) ++ b) M = true); [|congruence].
    apply includes_spec. exists pre, (post ++ b). by rewrite <- !app_assoc.
  - destruct (includes b M) eqn:E; [|done].
    apply includes_spec in E as (pre & post & ->).
    assert (includes (a ++ pre ++ M ++ post) M = true); [|congruence].
    apply includes_spec. exists (a ++ pre), post. by rewrite <- !app_assoc.
Qed.

Lemma deleteAllFrom_skip (M a Y : JSString) :
  deleteAllFrom M (length a) (a ++ Y) = deleteAllFrom M 0 Y.
Proof. induction a as [|c a IH]; [by destruct Y | exact IH]. Qed.

Lemma deleteAllFrom_marker (M Y : JSString) :
  M <> [] -> deleteAllFrom M 0 (M ++ Y) = deleteAllFrom M 0 Y.
Proof.
  destruct M as [|c M']; [done|]. intros _.
  change ((c :: M') ++ Y) with (c :: (M' ++ Y)). cbn [deleteAllFrom].
  assert (startsWith (c :: M' ++ Y) (c :: M') = true) as ->.
  { apply startsWith_spec. by exists Y. }
  cbn [falsy negb andb].
  replace (length (c :: M') - 1)%nat with (length M') by (simpl; lia).
  apply deleteAllFrom_skip.
Qed.

Lemma deleteAllFrom_keep (body a X : JSString) :
  60 ∉ body ->
  includes a (60 :: body) = false ->
  X = [] \/ (exists X', X = 60 :: X') ->
  deleteAllFrom (60 :: body) 0 (a ++ X)
  = a ++ deleteAllFrom (60 :: body) 0 X.
Proof.
  intros Hbody Ha HX. induction a as [|c a IH]; [done|].
  change ((c :: a) ++ X) with (c :: (a ++ X)). cbn [deleteAllFrom].
  destruct (startsWith (c :: a ++ X) (60 :: body)) eqn:E.
  - exfalso. apply startsWith_spec in E as (post & E).
    injection E as -> E.
    assert (Hno : forall k, a <> body ++ k).
    { intros k ->.
      assert (includes (60 :: body ++ k) (60 :: body) = true); [|congruence].
      apply includes_spec. by exists [], k. }
    apply app_eq_inv in E as [(k & E1 & _)|(k & E1 & E2)].
    + by apply (Hno k).
    + destruct HX as [->|(X' & ->)].
      * destruct k; [|done]. apply (Hno []). by rewrite app_nil_r in *.
      * destruct k as [|c' k].
        -- apply (Hno []). by rewrite app_nil_r in *.
        -- injection E2 as <- _. apply Hbody. rewrite E1.
           apply elem_of_app. right. by left.
  - cbn [andb]. rewrite IH; [done|].
    by apply (includes_false_app [c] a).
Qed.

Lemma deleteAllFrom_keep_all (body a : JSString) :
  60 ∉ body ->
  includes a (60 :: body) = false ->
  deleteAllFrom (60 :: body) 0 a = a.
Proof.
  intros Hbody Ha.
  rewrite <- (app_nil_r a) at 1.
  rewrite (deleteAllFrom_keep body a []); [apply app_nil_r|done|done|by left].
Qed.

Lemma markOpen_shape : exists body, markOpen = 60 :: body /\ 60 ∉ body.
Proof.
  exists (drop 1 markOpen). split; [reflexivity|].
  rewrite list_elem_of_In. vm_compute. lia.
Qed.

Lemma markClose_shape : exists body, markClose = 60 :: body /\ 60 ∉ body.
Proof.
  exists (drop 1 markClose). split; [reflexivity|].
  rewrite list_elem_of_In. vm_compute. lia.
Qed.

Lemma deleteAllFrom_open_over_close (Y : JSString) :
  deleteAllFrom markOpen 0 (markClose ++ Y)
  = markClose ++ deleteAllFrom markOpen 0 Y.
Proof. reflexivity. Qed.

Lemma stripMarkers_plain (a : JSString) :
  includes a markOpen = false -> includes a markClose = false ->
  stripMarkers a = a.
Proof.
  intros Ho Hc. unfold stripMarkers.
  destruct markOpen_shape as (bo & Eo & Hbo).
  destruct markClose_shape as (bc & Ec & Hbc).
  rewrite Eo in *. rewrite Ec in *.
  rewrite (deleteAllFrom_keep_all bo a Hbo Ho).
  apply (deleteAllFrom_keep_all bc a Hbc Hc).
Qed.

(** What the markers wrap, and what stands before and after, comes back
    when the markers are stripped. *)
Lemma stripMarkers_wrapped (a m out rest : JSString) :
  includes (a ++ m) markOpen = false ->
  includes (a ++ m) markClose = false ->
  stripMarkers out = rest ->
  stripMarkers (a ++ (markOpen ++ m ++ markClose) ++ out) = a ++ m ++ rest.
Proof.
  intros Ho Hc <-. unfold stripMarkers.
  destruct (includes_false_app _ _ _ Ho) as [Hoa Hom].
  destruct markOpen_shape as (bo & Eo & Hbo).
  destruct markClose_shape as (bc & Ec & Hbc).
  rewrite <- !app_assoc.
  assert (Hopen :
    deleteAllFrom markOpen 0 (a ++ markOpen ++ m ++ markClose ++ out)
    = a ++ m ++ markClose ++ deleteAllFrom markOpen 0 out).
  { rewrite Eo in Hoa, Hom.
    rewrite Eo at 1. rewrite (deleteAllFrom_keep bo a); [|done|done|].
    2:{ right. rewrite Eo. by eexists. }
    rewrite <- Eo. rewrite deleteAllFrom_marker by (by rewrite Eo).
    rewrite Eo at 1. rewrite (deleteAllFrom_keep bo m); [|done|done|].
    2:{ right. rewrite Ec. by eexists. }
    rewrite <- Eo. by rewrite deleteAllFrom_open_over_close. }
  rewrite Hopen.
  rewrite (app_assoc a m). rewrite Ec in Hc. rewrite Ec at 1.
  rewrite (deleteAllFrom_keep bc (a ++ m)); [|done|done|].
  2:{ right. rewrite Ec. by eexists. }
  rewrite <- Ec. rewrite deleteAllFrom_marker by (by rewrite Ec).
  by rewrite <- app_assoc.
Qed.

Section StripHighlightAll.

Context (host : Host) (pat : list Z).

Lemma replaceMatches_first_match (s : JSString) :
  replaceMatches host pat s = s
  \/ exists p rest k,
       s = p ++ rest
       /\ matchHere host pat rest = Some (S k)
       /\ replaceMatches host pat s
          = p ++ (markOpen ++ take (S k) rest ++ markClose)
              ++ replaceMatches host pat (drop (S k) rest).
Proof.
  induction s as [s IH] using length_ind.
  destruct s as [|u s']; [by left|].
  rewrite replaceMatches_cons.
  assert (Hadv : forall w, (1 <= w)%nat ->
    take w (u :: s') ++ replaceMatches host pat (drop w (u :: s')) = u :: s'
    \/ exists p rest k,
         u :: s' = p ++ rest
         /\ matchHere host pat rest = Some (S k)
         /\ take w (u :: s') ++ replaceMatches host pat (drop w (u :: s'))
            = p ++ (markOpen ++ take (S k) rest ++ markClose)
                ++ replaceMatches host pat (drop (S k) rest)).
  { intros w Hw.
    destruct (IH (drop w (u :: s'))) as [E|(p & rest & k & E & Hm & Er)].
    - rewrite length_drop. simpl. lia.
    - left. rewrite E. apply take_drop.
    - right. exists (take w (u :: s') ++ p), rest, k. repeat split; [|done|].
      + by rewrite <- app_assoc, <- E, take_drop.
      + by rewrite Er, <- !app_assoc. }
  assert (Hw : (1 <= snd (codePointAt (u :: s')))%nat)
    by (destruct (codePointAt_width (u :: s')); lia).
  destruct (matchHere host pat (u :: s')) as [[|k]|] eqn:E;
    [by apply Hadv| |by apply Hadv].
  right. by exists [], (u :: s'), k.
Qed.

Lemma stripMarkers_replaceMatches (s : JSString) :
  includes s markOpen = false -> includes s markClose = false ->
  stripMarkers (replaceMatches host pat s) = s.
Proof.
  induction s as [s IH] using length_ind. intros Ho Hc.
  destruct (replaceMatches_first_match s)
    as [->|(p & rest & k & Es & Hm & ->)]; [by apply stripMarkers_plain|].
  pose proof (matchHere_le _ _ _ _ Hm) as Hle.
  rewrite <- (take_drop (S k) rest) in Es.
  rewrite Es, app_assoc in Ho, Hc.
  destruct (includes_false_app _ _ _ Ho) as [Ho1 Ho2].
  destruct (includes_false_app _ _ _ Hc) as [Hc1 Hc2].
  rewrite (stripMarkers_wrapped p (take (S k) rest) _ (drop (S k) rest));
    [by rewrite Es|done|done|].
  apply IH; [|done|done].
  rewrite Es, !length_app, length_take, length_drop. lia.
Qed.

End StripHighlightAll.

(** In mode [contains] the rendered text, its markers stripped, is the
    text, for every host, text without markers, and query. *)
Lemma stripMarkers_highlightAll (host : Host) (text q : JSString) :
  includes text markOpen = false -> includes text markClose = false ->
  stripMarkers (highlightAll host text q) = text.
Proof.
  intros Ho Hc. unfold highlightAll.
  destruct (falsy text || falsy q); [by apply stripMarkers_plain|].
  by apply stripMarkers_replaceMatches.
Qed.

(** ** Sentences come in order *)

Lemma inOrder_weaken (lo lo' hi : Z) (l : list Sentence) :
  lo' <= lo -> inOrder lo hi l -> inOrder lo' hi l.
Proof.
  destruct l as [|s l]; [done|]. simpl. intros ? (? & ? & ?).
  repeat split; (lia || done).
Qed.

Lemma takeWhile_length {A} (p : A -> bool) (l : list A) :
  (length (takeWhile p l) <= length l)%nat.
Proof.
  induction l as [|x l IH]; simpl; [lia|]. destruct (p x); simpl; lia.
Qed.

Lemma shorterBody_bounds (s : JSString) (k r : nat) :
  shorterBody s k = Some r -> (1 <= r <= k)%nat.
Proof.
  induction k as [|k IH]; [done|]. cbn [shorterBody].
  destruct (s !! S k) as [c|]; [destruct (isWhiteSpace c)|].
  - intros [= <-]. lia.
  - intros H%IH. lia.
  - intros H%IH. lia.
Qed.

Lemma sentenceAt_bounds (s : JSString) (n1 total : nat) :
  sentenceAt s = Some (n1, total) ->
  (1 <= n1 <= total)%nat /\ (total <= length s)%nat.
Proof.
  unfold sentenceAt.
  pose proof (takeWhile_length isBodyChar s) as Hr.
  remember (length (takeWhile isBodyChar s)) as r eqn:Er.
  destruct (Nat.eqb_spec r 0); [done|].
  pose proof (takeWhile_length isTerminator (drop r s)) as Hm.
  rewrite length_drop in Hm.
  remember (r + length (takeWhile isTerminator (drop r s)))%nat as t eqn:Et.
  pose proof (takeWhile_length isWhiteSpace (drop t s)) as Hw.
  rewrite length_drop in Hw.
  remember (length (takeWhile isWhiteSpace (drop t s))) as w eqn:Ew.
  destruct (drop t s) as [|c rest] eqn:Ed.
  - intros H. injection H as <- <-. lia.
  - destruct (isWhiteSpace c).
    + intros H. injection H as <- <-. lia.
    + destruct (shorterBody s (r - 1)) as [r'|] eqn:Eb; [|done].
      apply shorterBody_bounds in Eb.
      pose proof (takeWhile_length isWhiteSpace (drop r' s)) as Hw'.
      rewrite length_drop in Hw'.
      intros H. injection H as <- <-. lia.
Qed.

Lemma sentencesFrom_inOrder (skip : nat) (pos : Z) (s : JSString) :
  inOrder (pos + Z.of_nat skip) (pos + len s) (sentencesFrom skip pos s).
Proof.
  revert skip pos. induction s as [|c s IH]; intros skip pos; [done|].
  assert (Hlen : len (c :: s) = 1 + len s) by (unfold len; simpl length; lia).
  cbn [sentencesFrom]. destruct skip as [|k].
  - destruct (sentenceAt (c :: s)) as [[n1 total]|] eqn:E.
    + apply sentenceAt_bounds in E as [Hn Ht].
      pose proof (IH (total - 1)%nat (pos + 1)) as H.
      rewrite Hlen. replace (pos + (1 + len s)) with (pos + 1 + len s) by lia.
      destruct (len (trim (take n1 (c :: s))) =? 0).
      * eapply inOrder_weaken; [|exact H]. lia.
      * cbn [inOrder s_start s_text].
        assert (len (take n1 (c :: s)) = Z.of_nat n1) as ->.
        { unfold len. rewrite length_take. lia. }
        simpl length in Ht. unfold len. repeat split; [lia|lia|].
        eapply inOrder_weaken; [|exact H]. lia.
    + rewrite Hlen. replace (pos + (1 + len s)) with (pos + 1 + len s) by lia.
      eapply inOrder_weaken; [|exact (IH 0%nat (pos + 1))]. lia.
  - rewrite Hlen. replace (pos + (1 + len s)) with (pos + 1 + len s) by lia.
    eapply inOrder_weaken; [|exact (IH k (pos + 1))]. lia.
Qed.

Lemma splitIntoSentences_inOrder (text : JSString) :
  inOrder 0 (len text) (splitIntoSentences text).
Proof.
  unfold splitIntoSentences.
  destruct ((length (sentencesFrom 0 0 text) =? 0)%nat && negb (falsy text)).
  - simpl. unfold len. lia.
  - exact (sentencesFrom_inOrder 0 0 text).
Qed.

(** ** Ranges in order, and what [highlightRanges] renders from them *)

Lemma rangesInOrder_weaken (lo lo' hi : Z) (l : list Range) :
  lo' <= lo -> rangesInOrder lo hi l -> rangesInOrder lo' hi l.
Proof.
  destruct l as [|r l]; [done|]. simpl. intros ? (? & ? & ? & ?).
  repeat split; (lia || done).
Qed.

Lemma sortRanges_inOrder (lo hi : Z) (l : list Range) :
  rangesInOrder lo hi l -> sortRanges l = l.
Proof.
  revert lo. induction l as [|r l IH]; intros lo; [done|].
  simpl. intros (_ & Hr & _ & Hl). unfold sortRanges in *.
  rewrite (IH _ Hl). destruct l as [|x l]; [done|]. simpl.
  destruct Hl as (Hx & _). destruct (Z.leb_spec (r_start r) (r_start x)); [done|lia].
Qed.

Lemma slice_in_range (text : JSString) (a b : Z) :
  0 <= a -> a <= b -> b <= len text ->
  slice text a b = take (Z.to_nat (b - a)) (drop (Z.to_nat a) text).
Proof.
  intros Ha Hab Hb. unfold slice.
  destruct (Z.ltb_spec a 0); [lia|]. destruct (Z.ltb_spec b 0); [lia|].
  by rewrite !Z.min_l by lia.
Qed.

Lemma slice_substring (text : JSString) (a b : Z) :
  exists pre post, text = pre ++ slice text a b ++ post.
Proof.
  unfold slice. eexists (take _ text), (drop _ (drop _ text)).
  by rewrite take_drop, take_drop.
Qed.

Lemma slice_no_marker (text M : JSString) (a b : Z) :
  includes text M = false -> includes (slice text a b) M = false.
Proof.
  intros H. destruct (slice_substring text a b) as (pre & post & E).
  rewrite E in H. apply includes_false_app in H as [_ H].
  by apply includes_false_app in H as [H _].
Qed.

Lemma take_plus {A} (n m : nat) (l : list A) :
  take (n + m) l = take n l ++ take m (drop n l).
Proof.
  revert l. induction n as [|n IH]; intros l; [done|].
  destruct l as [|x l]; [by destruct m|]. simpl. by rewrite IH.
Qed.

Lemma slice_join (text : JSString) (a b c : Z) :
  0 <= a -> a <= b -> b <= c -> c <= len text ->
  slice text a b ++ slice text b c = slice text a c.
Proof.
  intros. rewrite !slice_in_range by lia.
  replace (Z.to_nat (c - a)) with (Z.to_nat (b - a) + Z.to_nat (c - b))%nat
    by lia.
  rewrite take_plus, drop_drop. do 3 f_equal. lia.
Qed.

Lemma sliceFrom_join (text : JSString) (a b : Z) :
  0 <= a -> a <= b -> b <= len text ->
  slice text a b ++ sliceFrom text b = sliceFrom text a.
Proof. intros. unfold sliceFrom. apply slice_join; lia. Qed.

Lemma sliceFrom_zero (text : JSString) : sliceFrom text 0 = text.
Proof.
  unfold sliceFrom. rewrite slice_in_range by (unfold len; lia).
  rewrite Z.sub_0_r. unfold len. rewrite Nat2Z.id. simpl.
  by rewrite firstn_all.
Qed.

Lemma emitRanges_strip (text : JSString) (ranges : list Range) (last : Z) :
  includes text markOpen = false -> includes text markClose = false ->
  0 <= last ->
  rangesInOrder last (len text) ranges ->
  stripMarkers (emitRanges text last ranges) = sliceFrom text last.
Proof.
  intros Ho Hc. revert last.
  induction ranges as [|r ranges IH]; intros last Hlast Hin.
  - simpl. apply stripMarkers_plain; by apply slice_no_marker.
  - destruct Hin as (H1 & H2 & H3 & Hrest). cbn [emitRanges].
    rewrite (stripMarkers_wrapped _ _ _ (sliceFrom text (r_end r))).
    + rewrite app_assoc, slice_join by lia. apply sliceFrom_join; lia.
    + rewrite slice_join by lia. by apply slice_no_marker.
    + rewrite slice_join by lia. by apply slice_no_marker.
    + apply IH; [lia|done].
Qed.

Lemma highlightRanges_strip (text : JSString) (ranges : list Range) :
  includes text markOpen = false -> includes text markClose = false ->
  rangesInOrder 0 (len text) ranges ->
  stripMarkers (highlightRanges text ranges) = text.
Proof.
  intros Ho Hc Hin. unfold highlightRanges.
  destruct (length ranges =? 0)%nat; [by apply stripMarkers_plain|].
  rewrite (sortRanges_inOrder _ _ _ Hin), emitRanges_strip by (done || lia).
  apply sliceFrom_zero.
Qed.

(** The ranges of [highlightByType] on Basic Latin text lie in their
    sentences, so they are in order. *)
Section AnchoredOnBasicLatin.

Context (host : Host) (text q : JSString).
Hypothesis Htext : Forall isBasicLatin text.
Hypothesis Hq : Forall isBasicLatin q.

Lemma anchoredRanges_inOrder (type : MatchType) (sentences : list Sentence)
    (lo : Z) :
  inOrder lo (len text) sentences ->
  (forall s, s ∈ sentences -> Forall isBasicLatin (s_text s)) ->
  rangesInOrder lo (len text)
    (anchoredRanges host type (normalize host q) sentences).
Proof.
  pose proof (normalize_basicLatin_length host q Hq) as Hlq.
  revert lo. induction sentences as [|s rest IH]; intros lo Hin Hgood; [done|].
  destruct Hin as (H1 & H2 & Hrest).
  pose proof (Hgood s (list_elem_of_here _ _)) as Hs.
  assert (IH' := IH _ Hrest
                   (fun s' Hs' => Hgood s' (list_elem_of_further _ _ _ Hs'))).
  assert (Hskip : rangesInOrder lo (len text)
            (anchoredRanges host type (normalize host q) rest)).
  { eapply rangesInOrder_weaken; [|exact IH']. unfold len. lia. }
  destruct type; try exact Hskip.
  - cbn [anchoredRanges].
    destruct (trimStartPunct_suffix host (s_text s)) as (removed & Er).
    assert (Forall isBasicLatin (trimStartPunct host (s_text s))) as Hb.
    { rewrite Er in Hs. by apply Forall_app in Hs as [_ ?]. }
    destruct (startsWith (normalize host (trimStartPunct host (s_text s)))
                (normalize host q)) eqn:E; [|exact Hskip].
    apply startsWith_length in E.
    pose proof (normalize_basicLatin_length host _ Hb) as Hl.
    assert (len (s_text s)
            = len removed + len (trimStartPunct host (s_text s))) as El.
    { rewrite Er at 1. unfold len. rewrite length_app. lia. }
    cbn [rangesInOrder r_start r_end]. unfold len in *.
    repeat split; try lia.
    eapply rangesInOrder_weaken; [|exact IH']. unfold len. lia.
  - cbn [anchoredRanges].
    destruct (trimEndPunct_prefix host (s_text s)) as (removed & Er).
    assert (Forall isBasicLatin (trimEndPunct host (s_text s))) as Hb.
    { rewrite Er in Hs. by apply Forall_app in Hs as [? _]. }
    destruct (endsWith (normalize host (trimEndPunct host (s_text s)))
                (normalize host q)) eqn:E; [|exact Hskip].
    apply endsWith_length in E.
    pose proof (normalize_basicLatin_length host _ Hb) as Hl.
    assert (len (s_text s)
            = len (trimEndPunct host (s_text s)) + len removed) as El.
    { rewrite Er at 1. unfold len. rewrite length_app. lia. }
    cbn [rangesInOrder r_start r_end]. unfold len in *.
    repeat split; try lia.
    eapply rangesInOrder_weaken; [|exact IH']. unfold len. lia.
Qed.

(** On Basic Latin text without markers the rendered text, its markers
    stripped, is the text, in every mode. *)
Lemma stripMarkers_highlightByType_basicLatin (type : MatchType) :
  includes text markOpen = false -> includes text markClose = false ->
  stripMarkers (highlightByType host text q type) = text.
Proof.
  intros Ho Hc. unfold highlightByType.
  destruct (falsy text || falsy q); [by apply stripMarkers_plain|].
  assert (Hranges : forall type',
    stripMarkers
      (highlightRanges text
         (anchoredRanges host type' (normalize host q)
            (splitIntoSentences text))) = text).
  { intros type'. apply highlightRanges_strip; [done|done|].
    apply anchoredRanges_inOrder; [apply splitIntoSentences_inOrder|].
    intros s Hs. by apply (sentence_in_text text Htext s). }
  destruct type; try apply Hranges.
  by apply stripMarkers_highlightAll.
Qed.

End AnchoredOnBasicLatin.

(** ** Offsets taken from the lower-cased text *)

(** C6 fails on the code. The lower case of U+0130 is two code units long.
    The text U+0130 ends with the query U+0069 U+0307 for the predicate, and
    the locator, which subtracts the length of the query from the length of
    the sentence, computes the offset -1 and returns nothing. In mode
    [contains] the offset is an index into the lower-cased text: for the
    query [x] in U+0130 U+0130 [x] it is 4, past the end of the text.
    On Basic Latin text the two agree ([locator_agrees_on_basicLatin]). *)
Theorem locator_disagrees_with_predicate :
  matchByType latinHost [dottedI] [0x69; 0x307] EndsWith = true
  /\ computeMatchInfo latinHost [dottedI] [0x69; 0x307] EndsWith = None
  /\ matchByType latinHost [dottedI; dottedI; 120] [120] Contains = true
  /\ mi_index <$> computeMatchInfo latinHost [dottedI; dottedI; 120] [120]
                    Contains = Some 4
  /\ len [dottedI; dottedI; 120] = 3.
Proof. repeat split; vm_compute; reflexivity. Qed.

(** C10 fails on the code. The text is two lines, each three U+0130, and
    the query is three U+0130; its lower case is six code units long. Both
    lines start with the query, the ranges pushed are 0 to 6 and 4 to 10,
    they overlap, and the rendered text repeats the two code units of the
    overlap. In mode [contains], and on Basic Latin text in every mode,
    nothing is lost or repeated ([stripMarkers_highlightAll],
    [stripMarkers_highlightByType_basicLatin]). *)
Theorem highlightByType_repeats_text :
  includes [dottedI; dottedI; dottedI; 10; dottedI; dottedI; dottedI] markOpen
    = false
  /\ includes [dottedI; dottedI; dottedI; 10; dottedI; dottedI; dottedI]
       markClose = false
  /\ highlightByType latinHost
       [dottedI; dottedI; dottedI; 10; dottedI; dottedI; dottedI]
       [dottedI; dottedI; dottedI] StartsWith
     = markOpen ++ [dottedI; dottedI; dottedI; 10; dottedI; dottedI]
         ++ markClose ++ markOpen ++ [dottedI; dottedI; dottedI] ++ markClose
  /\ stripMarkers
       (highlightByType latinHost
          [dottedI; dottedI; dottedI; 10; dottedI; dottedI; dottedI]
          [dottedI; dottedI; dottedI] StartsWith)
     = [dottedI; dottedI; dottedI; 10; dottedI; dottedI;
        dottedI; dottedI; dottedI].
Proof. repeat split; vm_compute; reflexivity. Qed.

(** ** Scenarios of the specification, on the Latin host *)

Example sentences_of_two_sentences :
  splitIntoSentences (js "Thank you. Goodbye.")
  = [ {| s_text := js "Thank you."; s_start := 0; s_end := 10 |};
      {| s_text := js "Goodbye."; s_start := 11; s_end := 19 |} ].
Proof. vm_compute. reflexivity. Qed.

Example sentence_without_following_space_is_skipped :
  splitIntoSentences (js "a.b c")
  = [ {| s_text := js "b c"; s_start := 2; s_end := 5 |} ].
Proof. vm_compute. reflexivity. Qed.

Example startsWith_is_anchored_to_sentences :
  matchByType latinHost (js "Intro. Hello world. Bye.") (js "Hello") StartsWith
    = true
  /\ matchByType latinHost (js "Intro. Hello world. Bye.") (js "world")
       StartsWith = false.
Proof. split; vm_compute; reflexivity. Qed.

Example endsWith_thank_you :
  matchByType latinHost (js "Thank you. Goodbye.") (js "Thank you") EndsWith
    = true.
Proof. vm_compute. reflexivity. Qed.

Example payment_is_highlighted :
  exists result,
    searchDocuments latinHost (exactFuse latinHost)
      (offlineBlobs
         [ {| d_id := js "1"; fileName := Some (js "invoice_2023.pdf");
              author := None; title := None;
              textContent :=
                Some (js "Payment due. Thank you for your business.");
              textContentStoragePath := None; pageCount := None |} ])
      (js "Payment") Contains FieldContent = Resolved [result]
    /\ highlightedContent result
       = Some (markOpen ++ js "Payment" ++ markClose
                 ++ js " due. Thank you for your business.").
Proof. eexists. split; vm_compute; reflexivity. Qed.

(** ** The theorems at concrete inputs *)

Lemma searchDocuments_rejects_blank_query_witness :
  searchDocuments latinHost (exactFuse latinHost) offlineStore (js "   ")
    Contains FieldAll = Resolved []
  /\ searchDocuments latinHost (exactFuse latinHost) offlineStore (js " ?!. ")
       EndsWith FieldContent = Resolved [].
Proof.
  split; apply searchDocuments_rejects_blank_query;
    [left | right]; vm_compute; reflexivity.
Defined.

Lemma endsWith_ignores_trailing_period_witness :
  matchByType latinHost (js "Hello there. Goodbye now. Bye") (js "now")
    EndsWith = true.
Proof.
  destruct (endsWith_ignores_trailing_period latinHost
              (js "Hello there. Goodbye now. Bye")
              {| s_text := js "Goodbye now."; s_start := 13; s_end := 25 |})
    as [H _].
  - apply list_elem_of_In. vm_compute. right. left. reflexivity.
  - reflexivity.
  - exact H.
Defined.

Lemma hydration_failure_is_local_witness :
  exists results,
    searchDocuments latinHost (exactFuse latinHost)
      (offlineBlobs [namedDoc "abc"; pendingDoc "abd" "texts/abd.txt"])
      (js "ab") Contains FieldAll = Resolved results
    /\ enrich latinHost (trim (js "ab")) Contains
         (pendingDoc "abd" "texts/abd.txt") ∈ results.
Proof.
  destruct (hydration_failure_is_local latinHost (exactFuse latinHost)
              [namedDoc "abc"; pendingDoc "abd" "texts/abd.txt"]
              (fun _ => Rejected) (js "ab") Contains FieldAll
              (pendingDoc "abd" "texts/abd.txt"))
    as (results & Hsearch & _ & _ & _ & _ & Hin).
  - apply list_elem_of_In. right. left. reflexivity.
  - reflexivity.
  - reflexivity.
  - reflexivity.
  - exists results. split; [exact Hsearch|]. apply Hin.
    + vm_compute. reflexivity.
    + vm_compute. reflexivity.
    + right. split; [|apply exactFuse_submseteq].
      apply list_elem_of_In. vm_compute. right. left. reflexivity.
    + simpl. lia.
Defined.

Lemma searchDocuments_caps_results_witness :
  exists results,
    searchDocuments latinHost (exactFuse latinHost)
      (offlineBlobs (replicate 150 (namedDoc "abc"))) (js "abc")
      Contains FieldAll = Resolved results
    /\ length results = 100%nat.
Proof.
  eexists. split.
  - apply (searchDocuments_resolved latinHost (exactFuse latinHost)
             (offlineBlobs (replicate 150 (namedDoc "abc")))
             (replicate 150 (namedDoc "abc")));
      reflexivity.
  - destruct (searchDocuments_caps_results latinHost (exactFuse latinHost)
                (offlineBlobs (replicate 150 (namedDoc "abc")))
                (replicate 150 (namedDoc "abc")) (js "abc") Contains FieldAll
                (take resultCap
                   (enrich latinHost (trim (js "abc")) Contains
                      <$> orderCandidates (exactFuse latinHost)
                            (candidatesOf latinHost
                               (offlineBlobs (replicate 150 (namedDoc "abc")))
                               (replicate 150 (namedDoc "abc"))
                               (trim (js "abc")) Contains FieldAll)
                            (trim (js "abc")))))
      as (_ & _ & _ & H).
    + reflexivity.
    + apply searchDocuments_resolved; reflexivity.
    + apply H.
      * reflexivity.
      * vm_compute. reflexivity.
      * right. vm_compute. reflexivity.
Defined.

(** * Further properties of the search service *)

(** ** Sentences *)

Lemma sentencesFrom_shape (skip : nat) (pos : Z) (s : JSString)
    (sentence : Sentence) :
  sentence ∈ sentencesFrom skip pos s ->
  s_end sentence = s_start sentence + len (s_text sentence)
  /\ s_text sentence <> []
  /\ trim (s_text sentence) <> [].
Proof.
  revert skip pos. induction s as [|c s IH]; intros skip pos Hin.
  - by apply elem_of_nil in Hin.
  - cbn [sentencesFrom] in Hin. destruct skip as [|k]; [|by eapply IH].
    destruct (sentenceAt (c :: s)) as [[n1 total]|] eqn:E; [|by eapply IH].
    destruct (Z.eqb_spec (len (trim (take n1 (c :: s)))) 0) as [|Hne];
      [by eapply IH|].
    apply elem_of_cons in Hin as [->|Hin]; [|by eapply IH].
    apply sentenceAt_bounds in E as [Hn _]. cbn [s_end s_start s_text].
    split; [done|]. split.
    + destruct n1; [lia | done].
    + intros Ht. apply Hne. by rewrite Ht.
Qed.

Lemma slice_of_piece (pre m post : JSString) :
  slice (pre ++ m ++ post) (len pre) (len pre + len m) = m.
Proof.
  rewrite slice_in_range.
  - unfold len. rewrite Nat2Z.id.
    replace (Z.to_nat (Z.of_nat (length pre) + Z.of_nat (length m)
                       - Z.of_nat (length pre))) with (length m) by lia.
    by rewrite drop_app_length, take_app_length.
  - unfold len. lia.
  - unfold len. lia.
  - unfold len. rewrite !length_app. lia.
Qed.

(** X1. Every sentence that [splitIntoSentences] returns is the piece of the
    text between its two offsets: the offsets lie in the text, the end is the
    start plus the length, and the piece is not empty. *)
Theorem splitIntoSentences_pieces (text : JSString) (s : Sentence) :
  s ∈ splitIntoSentences text ->
  0 <= s_start s
  /\ s_end s = s_start s + len (s_text s)
  /\ s_end s <= len text
  /\ s_text s = slice text (s_start s) (s_end s)
  /\ s_text s <> [].
Proof.
  intros Hin.
  destruct (splitIntoSentences_substring text s Hin) as (pre & post & E & Hs).
  assert (Hshape : s_end s = s_start s + len (s_text s) /\ s_text s <> []).
  { revert Hin. unfold splitIntoSentences.
    destruct (length (sentencesFrom 0 0 text) =? 0)%nat eqn:E0; simpl.
    - destruct text as [|c t]; simpl.
      + intros H. by apply elem_of_nil in H.
      + intros ->%list_elem_of_singleton. done.
    - intros H. destruct (sentencesFrom_shape _ _ _ _ H) as (? & ? & _).
      done. }
  destruct Hshape as [He Hne]. repeat split; try done.
  - rewrite Hs. unfold len. lia.
  - rewrite He, Hs, E. unfold len. rewrite !length_app. lia.
  - rewrite He, Hs. rewrite E at 1. by rewrite slice_of_piece.
Qed.

Lemma inOrder_lookup (lo hi : Z) (l : list Sentence) (i j : nat)
    (a b : Sentence) :
  inOrder lo hi l ->
  l !! i = Some a -> l !! j = Some b -> (i < j)%nat ->
  s_start a + len (s_text a) <= s_start b.
Proof.
  revert lo i j. induction l as [|x l IH]; intros lo i j Hin Ha Hb Hij.
  - done.
  - destruct Hin as (H1 & H2 & Hrest). destruct j as [|j]; [lia|].
    destruct i as [|i].
    + injection Ha as ->. simpl in Hb. clear IH. clear H1 H2 Hij.
      revert j Hb Hrest. generalize (s_start a + len (s_text a)).
      induction l as [|y l IHl]; intros lo' j Hb Hin; [done|].
      destruct Hin as (H1 & H2 & Hr).
      destruct j as [|j]; [by injection Hb as -> |].
      simpl in Hb. specialize (IHl _ _ Hb Hr). unfold len in *. lia.
    + simpl in Ha, Hb. eapply IH; [exact Hrest|exact Ha|exact Hb|lia].
Qed.

(** X2. The sentences come in the order of the text and do not overlap: a
    sentence ends before any later one starts. *)
Theorem splitIntoSentences_ordered (text : JSString) (i j : nat)
    (a b : Sentence) :
  splitIntoSentences text !! i = Some a ->
  splitIntoSentences text !! j = Some b ->
  (i < j)%nat ->
  s_end a <= s_start b.
Proof.
  intros Ha Hb Hij.
  assert (Hin : a ∈ splitIntoSentences text)
    by (by eapply list_elem_of_lookup_2).
  destruct (splitIntoSentences_pieces text a Hin) as (_ & -> & _).
  by eapply inOrder_lookup; [apply splitIntoSentences_inOrder|..].
Qed.

(** X3. The empty text has no sentence and every other text has at least
    one. A piece that is only white space is not a sentence, except when
    nothing else is found: then the whole text is the one sentence. *)
Theorem splitIntoSentences_blank_pieces (text : JSString) :
  (splitIntoSentences text = [] <-> text = [])
  /\ (forall s,
        s ∈ splitIntoSentences text ->
        trim (s_text s) <> []
        \/ splitIntoSentences text
           = [{| s_text := text; s_start := 0; s_end := len text |}]).
Proof.
  unfold splitIntoSentences.
  destruct (sentencesFrom 0 0 text) as [|x l] eqn:E.
  - destruct text as [|c t]; simpl.
    + split; [done|]. intros s Hs. by apply elem_of_nil in Hs.
    + split; [done|]. intros s _. by right.
  - simpl. split.
    + split; [done|]. intros ->. done.
    + intros s Hs. left. rewrite <- E in Hs.
      by destruct (sentencesFrom_shape _ _ _ _ Hs) as (_ & _ & ?).
Qed.

Lemma splitIntoSentences_pieces_witness :
  js "Goodbye." = slice (js "Thank you. Goodbye.") 11 19
  /\ js "Goodbye." <> [].
Proof.
  destruct (splitIntoSentences_pieces (js "Thank you. Goodbye.")
              {| s_text := js "Goodbye."; s_start := 11; s_end := 19 |})
    as (_ & _ & _ & H1 & H2).
  - apply list_elem_of_In. vm_compute. right. left. reflexivity.
  - split; [exact H1 | exact H2].
Defined.

Lemma splitIntoSentences_ordered_witness :
  s_end {| s_text := js "Thank you."; s_start := 0; s_end := 10 |}
  <= s_start {| s_text := js "Goodbye."; s_start := 11; s_end := 19 |}.
Proof.
  apply (splitIntoSentences_ordered (js "Thank you. Goodbye.") 0 1
           {| s_text := js "Thank you."; s_start := 0; s_end := 10 |}
           {| s_text := js "Goodbye."; s_start := 11; s_end := 19 |}).
  - vm_compute. reflexivity.
  - vm_compute. reflexivity.
  - lia.
Defined.

(** ** The locator and the snippet *)

Lemma slice_length_le (s : JSString) (a b : Z) :
  0 <= a -> 0 <= b -> (length (slice s a b) <= Z.to_nat (b - a))%nat.
Proof.
  intros Ha Hb. unfold slice.
  destruct (Z.ltb_spec a 0); [lia|]. destruct (Z.ltb_spec b 0); [lia|].
  rewrite length_take. lia.
Qed.

(** X4. The snippet around a located match is short: at most 220 code units
    of the text on either side of a span of the length of the query, and an
    ellipsis at either end, so at most the length of the query plus 442. The
    highlighted snippet is longer by the 38 code units of the two markers;
    the offset of a located match is never negative. *)
Theorem computeMatchInfo_snippet_bound (host : Host) (text q : JSString)
    (type : MatchType) (info : MatchInfo) :
  computeMatchInfo host text q type = Some info ->
  0 <= mi_index info
  /\ mi_length info = len q
  /\ (length (mi_snippet info) <= length q + 442)%nat
  /\ length (mi_highlightedSnippet info)
     = (length (mi_snippet info) + 38)%nat.
Proof.
  unfold computeMatchInfo. destruct (falsy text || falsy q); [done|].
  remember (match type with
            | Contains => indexOf (normalize host text) (normalize host q)
            | _ => locateAnchored host type q (normalize host q)
                     (splitIntoSentences text)
            end) as idx eqn:Eidx. clear Eidx.
  destruct (Z.ltb_spec idx 0) as [|Hidx]; [done|].
  intros H. apply (inj Some) in H. subst info.
  cbn [mi_index mi_length mi_snippet mi_highlightedSnippet].
  split; [done|]. split; [done|]. unfold snippetRadius.
  pose proof (slice_length_le text (Z.max 0 (idx - 220)) idx) as H1.
  pose proof (slice_length_le text idx (idx + len q)) as H2.
  pose proof (slice_length_le text (idx + len q)
                (Z.min (len text) (idx + len q + 220))) as H3.
  assert (Hl : forall b : bool,
             (length (if b then ellipsis else []) <= 1)%nat)
    by (intros []; simpl; lia).
  pose proof (Hl (0 <? Z.max 0 (idx - 220))) as H4.
  pose proof (Hl (Z.min (len text) (idx + len q + 220) <? len text)) as H5.
  rewrite !length_app, markOpen_length, markClose_length.
  unfold len in *. split; lia.
Qed.

Lemma computeMatchInfo_snippet_bound_witness :
  exists info,
    computeMatchInfo latinHost (js "Payment due. Thank you.") (js "thank")
      StartsWith = Some info
    /\ mi_index info = 13
    /\ (length (mi_snippet info) <= 5 + 442)%nat.
Proof.
  eexists. split; [vm_compute; reflexivity|]. split; [reflexivity|].
  eapply (computeMatchInfo_snippet_bound latinHost
            (js "Payment due. Thank you.") (js "thank") StartsWith).
  vm_compute. reflexivity.
Defined.

Lemma computeMatchInfo_length (host : Host) (text q : JSString)
    (type : MatchType) (info : MatchInfo) :
  computeMatchInfo host text q type = Some info -> mi_length info = len q.
Proof.
  unfold computeMatchInfo. destruct (falsy text || falsy q); [done|].
  destruct (_ <? 0); [done|]. intros H. apply (inj Some) in H. by subst info.
Qed.

Lemma fmap_slice (f : Z -> Z) (s : JSString) (a b : Z) :
  f <$> slice s a b = slice (f <$> s) a b.
Proof. unfold slice, len. by rewrite length_fmap, fmap_take, fmap_drop. Qed.

Lemma endsWith_spec (s n : JSString) :
  endsWith s n = true <-> exists pre, s = pre ++ n.
Proof.
  unfold endsWith. rewrite startsWith_spec. split.
  - intros [post E]. exists (reverse post).
    rewrite <- (reverse_involutive s), E, reverse_app.
    by rewrite reverse_involutive.
  - intros [pre ->]. exists (reverse pre). by rewrite reverse_app.
Qed.

Lemma locateAnchored_found (host : Host) (type : MatchType) (q lq : JSString)
    (sentences : list Sentence) :
  0 <= locateAnchored host type q lq sentences ->
  exists s,
    s ∈ sentences
    /\ (type = StartsWith
        /\ startsWith (normalize host (trimStartPunct host (s_text s))) lq
           = true
        /\ locateAnchored host type q lq sentences
           = s_start s
             + (len (s_text s) - len (trimStartPunct host (s_text s)))
        \/ type = EndsWith
           /\ endsWith (normalize host (trimEndPunct host (s_text s))) lq
              = true
           /\ locateAnchored host type q lq sentences
              = s_start s + len (trimEndPunct host (s_text s)) - len q).
Proof.
  induction sentences as [|s rest IH]; simpl; [lia|].
  assert (Hrest : 0 <= locateAnchored host type q lq rest ->
    exists s0, s0 ∈ s :: rest
      /\ (type = StartsWith
          /\ startsWith (normalize host (trimStartPunct host (s_text s0))) lq
             = true
          /\ locateAnchored host type q lq rest
             = s_start s0
               + (len (s_text s0) - len (trimStartPunct host (s_text s0)))
          \/ type = EndsWith
             /\ endsWith (normalize host (trimEndPunct host (s_text s0))) lq
                = true
             /\ locateAnchored host type q lq rest
                = s_start s0 + len (trimEndPunct host (s_text s0)) - len q)).
  { intros H. destruct (IH H) as (s0 & Hin & Hs0). exists s0.
    split; [by right | done]. }
  destruct type; try exact Hrest.
  - destruct (startsWith _ lq) eqn:E; [|exact Hrest].
    intros _. exists s. split; [by left|]. by left.
  - destruct (endsWith _ lq) eqn:E; [|exact Hrest].
    intros _. exists s. split; [by left|]. by right.
Qed.

Section LocatedSpan.

Context (host : Host) (text q : JSString).
Hypothesis Htext : Forall isBasicLatin text.
Hypothesis Hq : Forall isBasicLatin q.

Lemma locator_decomposes (type : MatchType) (info : MatchInfo) :
  computeMatchInfo host text q type = Some info ->
  exists A B,
    asciiLower <$> text = A ++ (asciiLower <$> q) ++ B
    /\ mi_index info = len A.
Proof.
  unfold computeMatchInfo. destruct (falsy text || falsy q); [done|].
  rewrite (normalize_basicLatin host text Htext).
  rewrite (normalize_basicLatin host q Hq).
  remember (match type with
            | Contains => indexOf (asciiLower <$> text) (asciiLower <$> q)
            | _ => locateAnchored host type q (asciiLower <$> q)
                     (splitIntoSentences text)
            end) as idx eqn:Eidx.
  destruct (Z.ltb_spec idx 0) as [|Hidx]; [done|].
  intros H. injection H as <-. cbn [mi_index].
  assert (Hanch : 0 <= locateAnchored host type q (asciiLower <$> q)
                         (splitIntoSentences text) ->
                  idx = locateAnchored host type q (asciiLower <$> q)
                          (splitIntoSentences text) ->
                  exists A B,
                    asciiLower <$> text = A ++ (asciiLower <$> q) ++ B
                    /\ idx = len A).
  { intros H0 ->. clear Eidx Hidx.
    destruct (locateAnchored_found _ _ _ _ _ H0) as (s & Hin & Hs).
    destruct (splitIntoSentences_substring text s Hin)
      as (pre & post & Et & Hst).
    assert (Hparts : Forall isBasicLatin pre /\ Forall isBasicLatin (s_text s)
                     /\ Forall isBasicLatin post).
    { rewrite Et in Htext. apply Forall_app in Htext as [? H1].
      by apply Forall_app in H1 as [? ?]. }
    destruct Hparts as (Hpre & Hs_text & Hpost).
    destruct Hs as [(_ & Hm & ->) | (_ & Hm & ->)].
    - destruct (trimStartPunct_suffix host (s_text s)) as [removed Er].
      assert (Hl : Forall isBasicLatin (trimStartPunct host (s_text s))).
      { rewrite Er in Hs_text. by apply Forall_app in Hs_text as [_ ?]. }
      rewrite (normalize_basicLatin host _ Hl) in Hm.
      apply startsWith_spec in Hm as [r Hm].
      exists (asciiLower <$> (pre ++ removed)), (r ++ (asciiLower <$> post)).
      split.
      + rewrite Et. rewrite Er at 1.
        rewrite !fmap_app, Hm. by rewrite <- !app_assoc.
      + rewrite Hst. rewrite Er at 1. unfold len.
        rewrite length_fmap, !length_app. lia.
    - destruct (trimEndPunct_prefix host (s_text s)) as [removed Er].
      assert (Hl : Forall isBasicLatin (trimEndPunct host (s_text s))).
      { rewrite Er in Hs_text. by apply Forall_app in Hs_text as [? _]. }
      rewrite (normalize_basicLatin host _ Hl) in Hm.
      apply endsWith_spec in Hm as [front Hm].
      exists ((asciiLower <$> pre) ++ front),
             (asciiLower <$> (removed ++ post)).
      split.
      + rewrite Et. rewrite Er at 1.
        rewrite !fmap_app, Hm. by rewrite <- !app_assoc.
      + rewrite Hst.
        assert (length (trimEndPunct host (s_text s))
                = (length front + length q)%nat) as Hlen.
        { rewrite <- (length_fmap asciiLower (trimEndPunct host (s_text s))).
          by rewrite Hm, length_app, length_fmap. }
        unfold len. rewrite length_app, length_fmap, Hlen. lia. }
  destruct type; try (apply Hanch; [lia | done]).
  subst idx. unfold indexOf in *.
  destruct (indexOfFrom_position _ _ 0 ltac:(lia) Hidx)
    as (pre & post & E & Ei).
  exists pre, post. split; [done | lia].
Qed.

Lemma located_span (type : MatchType) (info : MatchInfo) :
  computeMatchInfo host text q type = Some info ->
  normalize host
    (slice text (mi_index info) (mi_index info + mi_length info))
  = normalize host q.
Proof.
  intros H. destruct (locator_decomposes type info H) as (A & B & E & Ei).
  pose proof (computeMatchInfo_length host text q type info H) as Hl.
  assert (Hs : Forall isBasicLatin
                 (slice text (mi_index info) (mi_index info + mi_length info))).
  { destruct (slice_substring text (mi_index info)
                (mi_index info + mi_length info)) as (pre & post & Es).
    rewrite Es in Htext. apply Forall_app in Htext as [_ H1].
    by apply Forall_app in H1 as [? _]. }
  rewrite (normalize_basicLatin host _ Hs), (normalize_basicLatin host q Hq).
  rewrite fmap_slice, E, Ei, Hl.
  replace (len q) with (len (asciiLower <$> q))
    by (unfold len; by rewrite length_fmap).
  apply slice_of_piece.
Qed.

Lemma anchored_implies_contains (type : MatchType) :
  matchByType host text q type = true ->
  matchByType host text q Contains = true.
Proof.
  intros Hm.
  destruct (locator_agrees_on_basicLatin host text q Htext Hq type)
    as [Hiff _].
  apply Hiff in Hm as [info Hinfo].
  destruct (locator_decomposes type info Hinfo) as (A & B & E & _).
  assert (Hq0 : q <> []).
  { revert Hinfo. unfold computeMatchInfo. destruct text, q; simpl; done. }
  unfold matchByType.
  rewrite (normalize_basicLatin host text Htext).
  rewrite (normalize_basicLatin host q Hq).
  destruct (asciiLower <$> q) as [|c n] eqn:En.
  - by apply fmap_nil_inv in En.
  - cbn [falsy]. apply includes_spec. by exists A, B.
Qed.

End LocatedSpan.

(** X5. On Basic Latin text the locator decides what the predicate decides:
    it returns a match exactly when [matchByType] is true, and the span it
    reports lies inside the text. *)
Theorem locator_agrees_with_predicate_on_basicLatin (host : Host)
    (text q : JSString) (type : MatchType) :
  Forall isBasicLatin text -> Forall isBasicLatin q ->
  (is_Some (computeMatchInfo host text q type)
   <-> matchByType host text q type = true)
  /\ (forall info,
        computeMatchInfo host text q type = Some info ->
        0 <= mi_index info /\ mi_index info + mi_length info <= len text).
Proof.
  intros Htext Hq.
  destruct (locator_agrees_on_basicLatin host text q Htext Hq type)
    as [Hiff Hspan].
  split; [exact Hiff|]. intros info Hinfo.
  rewrite (computeMatchInfo_length host text q type info Hinfo).
  by apply Hspan.
Qed.

Lemma locator_agrees_with_predicate_on_basicLatin_witness :
  is_Some (computeMatchInfo latinHost (js "Payment due. Thank you.")
             (js "THANK") StartsWith)
  <-> matchByType latinHost (js "Payment due. Thank you.") (js "THANK")
        StartsWith = true.
Proof.
  destruct (locator_agrees_with_predicate_on_basicLatin latinHost
              (js "Payment due. Thank you.") (js "THANK") StartsWith)
    as [H _].
  - apply basicLatin_check. reflexivity.
  - apply basicLatin_check. reflexivity.
  - exact H.
Defined.

(** X6. On Basic Latin text the span that the locator reports is an
    occurrence of the query up to case: the piece of the text at the reported
    offset, of the reported length, lower-cases to the lower-cased query. *)
Theorem located_span_is_the_query (host : Host) (text q : JSString)
    (type : MatchType) (info : MatchInfo) :
  Forall isBasicLatin text -> Forall isBasicLatin q ->
  computeMatchInfo host text q type = Some info ->
  normalize host
    (slice text (mi_index info) (mi_index info + mi_length info))
  = normalize host q.
Proof. intros Htext Hq. by apply located_span. Qed.

Lemma located_span_is_the_query_witness :
  normalize latinHost (slice (js "Payment due. Thank you.") 13 (13 + 5))
  = normalize latinHost (js "THANK").
Proof.
  apply (located_span_is_the_query latinHost (js "Payment due. Thank you.")
           (js "THANK") StartsWith
           {| mi_index := 13; mi_length := 5; mi_matchPercent := 57;
              mi_snippet := js "Payment due. Thank you.";
              mi_highlightedSnippet :=
                js "Payment due. " ++ markOpen ++ js "Thank" ++ markClose
                  ++ js " you." |}).
  - apply basicLatin_check. reflexivity.
  - apply basicLatin_check. reflexivity.
  - vm_compute. reflexivity.
Defined.

(** X7. On Basic Latin text a match anchored at the start or at the end of a
    sentence is also a match in mode [contains]. *)
Theorem anchored_match_is_contains_match (host : Host) (text q : JSString)
    (type : MatchType) :
  Forall isBasicLatin text -> Forall isBasicLatin q ->
  matchByType host text q type = true ->
  matchByType host text q Contains = true.
Proof. intros Htext Hq. by apply anchored_implies_contains. Qed.

Lemma anchored_match_is_contains_match_witness :
  matchByType latinHost (js "Hello there. Goodbye now. Bye") (js "NOW")
    Contains = true.
Proof.
  apply (anchored_match_is_contains_match latinHost
           (js "Hello there. Goodbye now. Bye") (js "NOW") EndsWith).
  - apply basicLatin_check. reflexivity.
  - apply basicLatin_check. reflexivity.
  - vm_compute. reflexivity.
Defined.

(** ** The renderer *)








Example unescaped_dot_is_no_literal :
  literalPattern (js "a.b") = None
  /\ literalPattern (escapeRegExp (js "a.b")) = Some (js "a.b").
Proof. split; vm_compute; reflexivity. Qed.

(** X9. In mode [contains] highlighting only inserts markers: for a text
    that holds no marker of its own, deleting the markers from the rendered
    text gives the text back, whatever the query and the engine. *)
Theorem highlightAll_keeps_text (host : Host) (text q : JSString) :
  includes text markOpen = false -> includes text markClose = false ->
  stripMarkers (highlightAll host text q) = text.
Proof. apply stripMarkers_highlightAll. Qed.

Lemma highlightAll_keeps_text_witness :
  stripMarkers (highlightAll latinHost (js "a.b axb A.B") (js "a.b"))
  = js "a.b axb A.B".
Proof.
  apply (highlightAll_keeps_text latinHost (js "a.b axb A.B") (js "a.b"));
    vm_compute; reflexivity.
Defined.

(** X10. On Basic Latin text highlighting only inserts markers in every
    mode: for a text that holds no marker of its own, deleting the markers
    from the rendered text gives the text back. *)
Theorem highlightByType_keeps_basicLatin_text (host : Host)
    (text q : JSString) (type : MatchType) :
  Forall isBasicLatin text -> Forall isBasicLatin q ->
  includes text markOpen = false -> includes text markClose = false ->
  stripMarkers (highlightByType host text q type) = text.
Proof.
  intros Htext Hq. by apply stripMarkers_highlightByType_basicLatin.
Qed.

Lemma highlightByType_keeps_basicLatin_text_witness :
  stripMarkers
    (highlightByType latinHost (js "Thank you. Thank them.") (js "thank")
       StartsWith)
  = js "Thank you. Thank them.".
Proof.
  apply (highlightByType_keeps_basicLatin_text latinHost
           (js "Thank you. Thank them.") (js "thank") StartsWith).
  - apply basicLatin_check. reflexivity.
  - apply basicLatin_check. reflexivity.
  - vm_compute. reflexivity.
  - vm_compute. reflexivity.
Defined.

(** ** The orchestrator *)

Lemma Resolved_inj {A} (a b : A) : Resolved a = Resolved b -> a = b.
Proof. by intros [= ->]. Qed.

Lemma elem_of_bool_filter {A} (f : A -> bool) (l : list A) (x : A) :
  x ∈ List.filter f l <-> x ∈ l /\ f x = true.
Proof. rewrite !list_elem_of_In. apply filter_In. Qed.

Lemma bool_filter_sublist {A} (f : A -> bool) (l : list A) :
  List.filter f l `sublist_of` l.
Proof.
  induction l as [|x l IH]; simpl; [done|].
  destruct (f x); by constructor.
Qed.

Lemma bool_filter_sublist_implies {A} (f g : A -> bool) (l : list A) :
  (forall x, f x = true -> g x = true) ->
  List.filter f l `sublist_of` List.filter g l.
Proof.
  intros Himp. induction l as [|x l IH]; simpl; [done|].
  destruct (f x) eqn:Ef.
  - rewrite (Himp x Ef). by constructor.
  - destruct (g x); [by constructor | done].
Qed.

Lemma dropWhile_all {A} (p : A -> bool) (w x : list A) :
  Forall (fun c => p c = true) w -> dropWhile p (w ++ x) = dropWhile p x.
Proof. induction 1 as [|c w Hc _ IH]; simpl; [done | by rewrite Hc]. Qed.

Lemma dropWhile_app_all {A} (p : A -> bool) (s w : list A) :
  Forall (fun c => p c = true) w ->
  dropWhile p (s ++ w) = dropWhile p s ++ w
  \/ dropWhile p (s ++ w) = [] /\ dropWhile p s = [].
Proof.
  intros Hw. induction s as [|c s IH]; simpl.
  - right. split; [|done]. rewrite <- (app_nil_r w). by rewrite dropWhile_all.
  - destruct (p c); [exact IH | by left].
Qed.

Lemma dropWhileEnd_all {A} (p : A -> bool) (x w : list A) :
  Forall (fun c => p c = true) w ->
  dropWhileEnd p (x ++ w) = dropWhileEnd p x.
Proof.
  intros Hw. unfold dropWhileEnd. rewrite reverse_app, dropWhile_all; [done|].
  by apply Forall_reverse.
Qed.

Lemma trim_padded (w1 s w2 : JSString) :
  Forall (fun c => isWhiteSpace c = true) w1 ->
  Forall (fun c => isWhiteSpace c = true) w2 ->
  trim (w1 ++ s ++ w2) = trim s.
Proof.
  intros H1 H2. unfold trim. rewrite dropWhile_all by done.
  destruct (dropWhile_app_all isWhiteSpace s w2 H2) as [-> | [-> ->]].
  - by apply dropWhileEnd_all.
  - done.
Qed.

Lemma trim_idempotent (s : JSString) : trim (trim s) = trim s.
Proof.
  destruct (trim_split s) as (w1 & w2 & E & H1 & H2).
  rewrite E at 2. by rewrite trim_padded.
Qed.

Section SearchFacts.

Context (host : Host) (fuse : Ranker) (backend : Backend).

Lemma sr_doc_enrich (q : JSString) (type : MatchType) (doc : Doc) :
  sr_doc (enrich host q type doc) = doc.
Proof. unfold enrich. by destruct (computeMatchInfo _ _ _ _). Qed.

Lemma searchDocuments_results (searchQuery : JSString) (type : MatchType)
    (field : SearchField) (results : list SearchResult)
    (r : SearchResult) :
  searchDocuments host fuse backend searchQuery type field
    = Resolved results ->
  r ∈ results ->
  exists docs doc,
    fetchAllDocuments backend = Resolved docs
    /\ doc ∈ orderCandidates fuse
               (candidatesOf host backend docs (trim searchQuery) type field)
               (trim searchQuery)
    /\ r = enrich host (trim searchQuery) type doc.
Proof.
  unfold searchDocuments.
  destruct (falsy (trim searchQuery)).
  { intros H. apply Resolved_inj in H. subst results.
    intros Hr. by apply elem_of_nil in Hr. }
  destruct (hasAlphaNum host (trim searchQuery)); simpl.
  2:{ intros H. apply Resolved_inj in H. subst results.
      intros Hr. by apply elem_of_nil in Hr. }
  destruct (fetchAllDocuments backend) as [docs|]; [|discriminate].
  intros H. apply Resolved_inj in H. subst results. intros Hr.
  pose proof (elem_of_submseteq _ _ _ Hr
                (sublist_submseteq _ _ (sublist_take _ _))) as Hr'.
  apply list_elem_of_fmap in Hr' as (doc & -> & Hdoc).
  by exists docs, doc.
Qed.

Lemma hydrate_fields (doc : Doc) :
  d_id (hydrate backend doc) = d_id doc
  /\ fileName (hydrate backend doc) = fileName doc
  /\ author (hydrate backend doc) = author doc
  /\ title (hydrate backend doc) = title doc
  /\ pageCount (hydrate backend doc) = pageCount doc.
Proof.
  unfold hydrate.
  destruct (negb (truthy (textContent doc))
            && truthy (textContentStoragePath doc)); [|done].
  by destruct (downloadText backend _).
Qed.

End SearchFacts.

Lemma searchDocuments_sound (host : Host) (fuse : Ranker)
    (backend : Backend) (docs : list Doc) (searchQuery : JSString)
    (type : MatchType) (field : SearchField) (results : list SearchResult)
    (r : SearchResult) :
  (forall candidates q, fuse candidates q ⊆+ candidates) ->
  fetchAllDocuments backend = Resolved docs ->
  searchDocuments host fuse backend searchQuery type field
    = Resolved results ->
  r ∈ results ->
  exists d,
    d ∈ docs
    /\ r = enrich host (trim searchQuery) type (hydrate backend d)
    /\ isCandidate host (trim searchQuery) type field (hydrate backend d)
       = true.
Proof.
  intros Hfuse Hdocs Hsearch Hr.
  destruct (searchDocuments_results host fuse backend _ _ _ _ _ Hsearch Hr)
    as (docs' & doc & Hdocs' & Hdoc & ->).
  rewrite Hdocs in Hdocs'. apply Resolved_inj in Hdocs'. subst docs'.
  assert (Hcand : doc ∈ candidatesOf host backend docs (trim searchQuery)
                         type field).
  { destruct (orderCandidates_cases fuse
                (candidatesOf host backend docs (trim searchQuery) type field)
                (trim searchQuery)) as [[_ E] | [_ E]];
      rewrite E in Hdoc; [done|].
    by eapply elem_of_submseteq. }
  unfold candidatesOf in Hcand.
  apply elem_of_bool_filter in Hcand as [Hin Hpass].
  apply list_elem_of_fmap in Hin as (d & -> & Hd).
  by exists d.
Qed.

(** X11. With an engine that returns only records it was given, every
    result of a search is built from a record of the corpus: its record is
    the hydrated copy of a corpus record, with the same id, file name and
    author, it passes the filter for the trimmed query, and the result is
    the enrichment of that record. *)
Theorem searchDocuments_results_are_candidates (host : Host) (fuse : Ranker)
    (backend : Backend) (docs : list Doc) (searchQuery : JSString)
    (type : MatchType) (field : SearchField) (results : list SearchResult)
    (r : SearchResult) :
  (forall candidates q, fuse candidates q ⊆+ candidates) ->
  fetchAllDocuments backend = Resolved docs ->
  searchDocuments host fuse backend searchQuery type field
    = Resolved results ->
  r ∈ results ->
  (exists d,
     d ∈ docs
     /\ sr_doc r = hydrate backend d
     /\ d_id (sr_doc r) = d_id d
     /\ fileName (sr_doc r) = fileName d
     /\ author (sr_doc r) = author d)
  /\ isCandidate host (trim searchQuery) type field (sr_doc r) = true
  /\ r = enrich host (trim searchQuery) type (sr_doc r).
Proof.
  intros Hfuse Hdocs Hsearch Hr.
  destruct (searchDocuments_sound host fuse backend docs _ _ _ _ _
              Hfuse Hdocs Hsearch Hr) as (d & Hd & -> & Hpass).
  rewrite sr_doc_enrich. split; [|done]. exists d.
  destruct (hydrate_fields backend d) as (? & ? & ? & _). done.
Qed.

Lemma searchDocuments_results_are_candidates_witness :
  isCandidate latinHost (js "ab") Contains FieldAll
    (sr_doc (enrich latinHost (js "ab") Contains (namedDoc "abc"))) = true.
Proof.
  destruct (searchDocuments_results_are_candidates latinHost
              (exactFuse latinHost)
              (offlineBlobs [namedDoc "xyz"; namedDoc "abc"])
              [namedDoc "xyz"; namedDoc "abc"] (js " ab ") Contains FieldAll
              [enrich latinHost (js "ab") Contains (namedDoc "abc")]
              (enrich latinHost (js "ab") Contains (namedDoc "abc")))
    as (_ & H & _).
  - intros candidates q. apply exactFuse_submseteq.
  - reflexivity.
  - vm_compute. reflexivity.
  - apply list_elem_of_In. left. reflexivity.
  - exact H.
Defined.

(** X12. White space around the query is ignored: a query padded with
    white space on either side gives the search the unpadded query gives. *)
Theorem searchDocuments_ignores_padding (host : Host) (fuse : Ranker)
    (backend : Backend) (w1 searchQuery w2 : JSString) (type : MatchType)
    (field : SearchField) :
  Forall (fun c => isWhiteSpace c = true) w1 ->
  Forall (fun c => isWhiteSpace c = true) w2 ->
  searchDocuments host fuse backend (w1 ++ searchQuery ++ w2) type field
  = searchDocuments host fuse backend searchQuery type field.
Proof.
  intros H1 H2. unfold searchDocuments. by rewrite trim_padded.
Qed.

Lemma searchDocuments_ignores_padding_witness :
  searchDocuments latinHost (exactFuse latinHost)
    (offlineBlobs [namedDoc "xyz"; namedDoc "abc"])
    (js "  " ++ js "ab" ++ [9; 10]) Contains FieldAll
  = searchDocuments latinHost (exactFuse latinHost)
      (offlineBlobs [namedDoc "xyz"; namedDoc "abc"]) (js "ab") Contains
      FieldAll.
Proof.
  apply (searchDocuments_ignores_padding latinHost (exactFuse latinHost)
           (offlineBlobs [namedDoc "xyz"; namedDoc "abc"])
           (js "  ") (js "ab") [9; 10] Contains FieldAll).
  - repeat constructor.
  - repeat constructor.
Defined.

Lemma searchDocuments_fetch_failure (host : Host) (fuse : Ranker)
    (backend : Backend) (searchQuery : JSString) (type : MatchType)
    (field : SearchField) :
  hasAlphaNum host (trim searchQuery) = true ->
  fetchAllDocuments backend = Rejected ->
  searchDocuments host fuse backend searchQuery type field = Rejected.
Proof.
  intros Ha Hf. unfold searchDocuments.
  rewrite (hasAlphaNum_nonempty host _ Ha), Ha, Hf. done.
Qed.

(** X13. A corpus that cannot be fetched fails the search: for a query whose
    trimmed form has a letter or a digit the search rejects, whatever the
    engine, the blob store, the mode and the scope are. *)
Theorem searchDocuments_propagates_fetch_failure (host : Host)
    (fuse : Ranker) (backend : Backend) (searchQuery : JSString)
    (type : MatchType) (field : SearchField) :
  hasAlphaNum host (trim searchQuery) = true ->
  fetchAllDocuments backend = Rejected ->
  searchDocuments host fuse backend searchQuery type field = Rejected.
Proof. apply searchDocuments_fetch_failure. Qed.

Lemma searchDocuments_propagates_fetch_failure_witness :
  searchDocuments latinHost (exactFuse latinHost) offlineStore (js " ab ")
    EndsWith FieldAuthor = Rejected.
Proof.
  apply (searchDocuments_propagates_fetch_failure latinHost
           (exactFuse latinHost) offlineStore (js " ab ") EndsWith
           FieldAuthor).
  - vm_compute. reflexivity.
  - reflexivity.
Defined.

(** X14. The estimated page of a result is a page of the document: it is
    given only for a record with a content match and a page count that is
    not zero, and for a positive page count it lies between 1 and that
    count. *)
Theorem estimatedPage_in_document (host : Host) (fuse : Ranker)
    (backend : Backend) (searchQuery : JSString) (type : MatchType)
    (field : SearchField) (results : list SearchResult) (r : SearchResult)
    (page : Z) :
  searchDocuments host fuse backend searchQuery type field
    = Resolved results ->
  r ∈ results ->
  estimatedPage r = Some page ->
  is_Some (matchIndex r)
  /\ exists pages,
       pageCount (sr_doc r) = Some pages
       /\ pages <> 0
       /\ page <= pages
       /\ (1 <= pages -> 1 <= page).
Proof.
  intros Hsearch Hr.
  destruct (searchDocuments_results host fuse backend _ _ _ _ _ Hsearch Hr)
    as (docs & doc & _ & _ & ->).
  unfold enrich.
  destruct (computeMatchInfo _ _ _ _) as [info|];
    cbn [estimatedPage matchIndex sr_doc]; [|done].
  destruct (pageCount doc) as [pages|]; [|done].
  destruct (Z.eqb_spec pages 0); [done|].
  intros H. apply (inj Some) in H. subst page.
  split; [by eexists|]. exists pages. repeat split; (done || lia).
Qed.

(** X15. Narrowing the scope never adds a candidate: the candidates of a
    search in the content, in the file names or in the authors are, in the
    same order, among the candidates of the search in all fields. *)
Theorem candidatesOf_field_within_all (host : Host) (backend : Backend)
    (docs : list Doc) (q : JSString) (type : MatchType)
    (field : SearchField) :
  candidatesOf host backend docs q type field
    `sublist_of` candidatesOf host backend docs q type FieldAll.
Proof.
  unfold candidatesOf. apply bool_filter_sublist_implies.
  intros doc. unfold isCandidate. destruct field; try done.
  - intros ->. done.
  - intros ->. by rewrite !orb_true_r.
  - intros ->. by rewrite !orb_true_r.
Qed.

Lemma estimatedPage_in_document_witness :
  let doc :=
    {| d_id := js "1"; fileName := Some (js "invoice_2023.pdf");
       author := None; title := None;
       textContent := Some (js "Payment due. Thank you for your business.");
       textContentStoragePath := None; pageCount := Some 3 |} in
  exists pages,
    pageCount (sr_doc (enrich latinHost (js "business") Contains doc))
      = Some pages
    /\ pages <> 0 /\ 3 <= pages /\ (1 <= pages -> 1 <= 3).
Proof.
  intros doc.
  destruct (estimatedPage_in_document latinHost (exactFuse latinHost)
              (offlineBlobs [doc]) (js "business") Contains FieldContent
              [enrich latinHost (js "business") Contains doc]
              (enrich latinHost (js "business") Contains doc) 3)
    as [_ H].
  - vm_compute. reflexivity.
  - apply list_elem_of_In. left. reflexivity.
  - vm_compute. reflexivity.
  - exact H.
Defined.

Lemma stripMarkers_highlightByType_contains (host : Host)
    (text q : JSString) :
  includes text markOpen = false -> includes text markClose = false ->
  stripMarkers (highlightByType host text q Contains) = text.
Proof.
  intros Ho Hc. unfold highlightByType.
  destruct (falsy text || falsy q).
  - by apply stripMarkers_plain.
  - by apply stripMarkers_highlightAll.
Qed.

(** X16. In mode [contains] the highlighted fields of a result are the
    fields of its record with markers put in: deleting the markers from the
    highlighted file name, author and full content gives the file name, the
    author and the content back, for each field that holds no marker of its
    own. *)
Theorem result_highlights_keep_fields (host : Host) (fuse : Ranker)
    (backend : Backend) (searchQuery : JSString) (field : SearchField)
    (results : list SearchResult) (r : SearchResult) :
  searchDocuments host fuse backend searchQuery Contains field
    = Resolved results ->
  r ∈ results ->
  let clean (v : option JSString) :=
    includes (orEmpty v) markOpen = false
    /\ includes (orEmpty v) markClose = false in
  (clean (fileName (sr_doc r)) ->
   stripMarkers (highlightedFileName r) = orEmpty (fileName (sr_doc r)))
  /\ (clean (author (sr_doc r)) ->
      stripMarkers (highlightedAuthor r) = orEmpty (author (sr_doc r)))
  /\ (clean (textContent (sr_doc r)) ->
      forall full,
        highlightedFullContent r = Some full ->
        stripMarkers full = orEmpty (textContent (sr_doc r))).
Proof.
  intros Hsearch Hr clean.
  destruct (searchDocuments_results host fuse backend _ _ _ _ _ Hsearch Hr)
    as (docs & doc & _ & _ & ->).
  rewrite sr_doc_enrich. unfold enrich.
  destruct (computeMatchInfo _ _ _ _) as [info|];
    cbn [highlightedFileName highlightedAuthor highlightedFullContent].
  - repeat split.
    + intros [? ?]. by apply stripMarkers_highlightByType_contains.
    + intros [? ?]. by apply stripMarkers_highlightByType_contains.
    + intros [? ?] full Hfull. apply (inj Some) in Hfull. subst full.
      by apply stripMarkers_highlightByType_contains.
  - repeat split.
    + intros [? ?]. by apply stripMarkers_highlightByType_contains.
    + intros [? ?]. by apply stripMarkers_highlightByType_contains.
    + done.
Qed.

Lemma result_highlights_keep_fields_witness :
  stripMarkers
    (highlightedFileName (enrich latinHost (js "ab") Contains (namedDoc "abc")))
  = orEmpty
      (fileName (sr_doc (enrich latinHost (js "ab") Contains (namedDoc "abc")))).
Proof.
  destruct (result_highlights_keep_fields latinHost (exactFuse latinHost)
              (offlineBlobs [namedDoc "xyz"; namedDoc "abc"]) (js " ab ")
              FieldAll
              [enrich latinHost (js "ab") Contains (namedDoc "abc")]
              (enrich latinHost (js "ab") Contains (namedDoc "abc")))
    as (H & _).
  - vm_compute. reflexivity.
  - apply list_elem_of_In. left. reflexivity.
  - apply H. split; vm_compute; reflexivity.
Defined.

(** ** Word tokens *)

Section TokenFacts.

Context (host : Host).

(** What holds of a token of the text whose code points are [cps]: it is a
    maximal run [cw] of word characters, after the code points [cA] and
    before the code points [cB]. *)
Lemma tokensFrom_runs (cA cw cps : list (Z * JSString)) (t : Token) :
  Forall (fun cp => isWordChar host cp = true) cw ->
  (forall cp, list.last cA = Some cp -> isWordChar host cp = false) ->
  t ∈ tokensFrom host (len (spell (cA ++ cw)))
        (match cw with
         | [] => None
         | _ :: _ => Some (len (spell cA), spell cw)
         end) cps ->
  exists cA' cw' cB',
    cA ++ cw ++ cps = cA' ++ cw' ++ cB'
    /\ cw' <> []
    /\ Forall (fun cp => isWordChar host cp = true) cw'
    /\ (forall cp, list.last cA' = Some cp -> isWordChar host cp = false)
    /\ (forall cp, list.head cB' = Some cp -> isWordChar host cp = false)
    /\ t_word t = spell cw'
    /\ t_start t = len (spell cA')
    /\ t_end t = t_start t + len (t_word t)
    /\ t_lower t = normalize host (t_word t).
Proof.
  revert cA cw. induction cps as [|cp rest IH]; intros cA cw Hcw HcA Ht.
  - cbn [tokensFrom] in Ht. destruct cw as [|c cw]; [by apply elem_of_nil in Ht|].
    cbn [closeToken] in Ht. apply list_elem_of_singleton in Ht. subst t.
    exists cA, (c :: cw), []. cbn [t_word t_start t_end t_lower list.head].
    repeat split; done.
  - cbn [tokensFrom] in Ht. destruct (isWordChar host cp) eqn:Ecp.
    + destruct (IH cA (cw ++ [cp])) as (cA' & cw' & cB' & E & Hrest).
      * apply Forall_app. split; [done|]. by constructor.
      * done.
      * replace (len (spell (cA ++ cw ++ [cp])))
          with (len (spell (cA ++ cw)) + len (snd cp)).
        2:{ rewrite !app_assoc, (spell_app (_ ++ _) [cp]).
            unfold len, spell at 3. simpl. rewrite app_nil_r, length_app.
            lia. }
        destruct cw as [|c cw].
        -- rewrite app_nil_r in Ht |- *. cbn [app].
           replace (spell [cp]) with (snd cp)
             by (unfold spell; simpl; by rewrite app_nil_r).
           exact Ht.
        -- cbn [app].
           replace (spell (c :: cw ++ [cp])) with (spell (c :: cw) ++ snd cp).
           2:{ change (c :: cw ++ [cp]) with ((c :: cw) ++ [cp]).
               rewrite spell_app. unfold spell at 3. simpl.
               by rewrite app_nil_r. }
           exact Ht.
      * exists cA', cw', cB'. split; [|done].
        rewrite <- E. by rewrite <- !app_assoc.
    + apply elem_of_app in Ht as [Ht|Ht].
      * destruct cw as [|c cw]; [by apply elem_of_nil in Ht|].
        cbn [closeToken] in Ht. apply list_elem_of_singleton in Ht. subst t.
        exists cA, (c :: cw), (cp :: rest).
        cbn [t_word t_start t_end t_lower list.head].
        repeat split; try done. by intros ? [= <-].
      * destruct (IH (cA ++ cw ++ [cp]) []) as (cA' & cw' & cB' & E & Hrest).
        -- done.
        -- intros cp'. rewrite !app_assoc, last_snoc. by intros [= <-].
        -- rewrite app_nil_r.
           replace (len (spell (cA ++ cw ++ [cp])))
             with (len (spell (cA ++ cw)) + len (snd cp)); [done|].
           rewrite !app_assoc, (spell_app (_ ++ _) [cp]).
           unfold len, spell at 3. simpl. rewrite app_nil_r, length_app.
           lia.
        -- exists cA', cw', cB'. split; [|done].
           rewrite <- E. by rewrite <- !app_assoc.
Qed.

Lemma tokensFrom_words (pos : Z) (cur : option (Z * JSString))
    (cps : list (Z * JSString)) :
  concat (t_word <$> tokensFrom host pos cur cps)
  = match cur with Some (_, word) => word | None => [] end
      ++ spell (List.filter (isWordChar host) cps).
Proof.
  revert pos cur. induction cps as [|cp rest IH]; intros pos cur.
  - cbn [tokensFrom]. destruct cur as [[start word]|]; simpl; [|done].
    unfold spell. simpl. done.
  - cbn [tokensFrom List.filter]. destruct (isWordChar host cp).
    + rewrite IH, spell_cons. destruct cur as [[start word]|]; [|done].
      by rewrite <- app_assoc.
    + rewrite fmap_app, concat_app, IH.
      destruct cur as [[start word]|]; simpl; [|done].
      by rewrite app_nil_r.
Qed.

End TokenFacts.

(** X17. Every token of [tokenizeWithOffsets] is a maximal run of letters
    and digits of the text: it is not empty, it is the piece of the text
    between its two offsets, the code point before it and the one after it,
    if any, are no letter or digit, and its lower-cased form is the
    lower-cased word. *)
Theorem tokens_are_maximal_runs (host : Host) (text : JSString)
    (t : Token) :
  t ∈ tokenizeWithOffsets host text ->
  (exists before run after,
     codePoints text = before ++ run ++ after
     /\ run <> []
     /\ Forall (fun cp => isWordChar host cp = true) run
     /\ (forall cp, list.last before = Some cp -> isWordChar host cp = false)
     /\ (forall cp, list.head after = Some cp -> isWordChar host cp = false)
     /\ t_word t = spell run
     /\ t_start t = len (spell before))
  /\ t_word t <> []
  /\ 0 <= t_start t
  /\ t_end t = t_start t + len (t_word t)
  /\ t_end t <= len text
  /\ t_word t = slice text (t_start t) (t_end t)
  /\ t_lower t = normalize host (t_word t).
Proof.
  unfold tokenizeWithOffsets. intros Ht.
  destruct (tokensFrom_runs host [] [] (codePoints text) t)
    as (cA & cw & cB & E & Hne & Hcw & HcA & HcB & Hw & Hs & He & Hl);
    [done | done | exact Ht |].
  cbn [app] in E.
  assert (Et : text = spell cA ++ t_word t ++ spell cB).
  { rewrite <- (spell_codePoints text) at 1. by rewrite E, !spell_app, Hw. }
  assert (Hcw1 : Forall (fun cp => snd cp <> []) (codePoints text)).
  { clear. induction text as [text IH] using length_ind.
    destruct text as [|u rest]; [constructor|].
    destruct rest as [|v rest]; [by repeat constructor|].
    change (codePoints (u :: v :: rest))
      with (if isHighSurrogate u && isLowSurrogate v
            then (pairValue u v, [u; v]) :: codePoints rest
            else (u, [u]) :: codePoints (v :: rest)).
    destruct (isHighSurrogate u && isLowSurrogate v).
    - constructor; [done|]. apply IH. simpl. lia.
    - constructor; [done|]. apply IH. simpl. lia. }
  assert (Hword : t_word t <> []).
  { rewrite Hw. rewrite E in Hcw1. apply Forall_app in Hcw1 as [_ H1].
    apply Forall_app in H1 as [H1 _]. destruct cw as [|c cw]; [done|].
    inversion H1 as [|? ? Hc _]. rewrite spell_cons.
    by destruct (snd c). }
  split; [by exists cA, cw, cB|].
  repeat split; try done.
  - rewrite Hs. unfold len. lia.
  - rewrite He, Hs. rewrite Et at 1. unfold len. rewrite !length_app. lia.
  - rewrite He, Hs. rewrite Et at 1. by rewrite slice_of_piece.
Qed.

Lemma tokens_are_maximal_runs_witness :
  js "World42" = slice (js "  Hello, World42!x_y ") 9 16.
Proof.
  destruct (tokens_are_maximal_runs latinHost (js "  Hello, World42!x_y ")
              {| t_word := js "World42"; t_start := 9; t_end := 16;
                 t_lower := js "world42" |})
    as (_ & _ & _ & _ & _ & H & _).
  - apply list_elem_of_In. vm_compute. right. left. reflexivity.
  - exact H.
Defined.

(** X18. The tokens hold the letters and digits of the text, all of them
    and in their order: the words of the tokens, put together, spell the
    code points of the text that are letters or digits. *)
Theorem tokens_cover_word_characters (host : Host) (text : JSString) :
  concat (t_word <$> tokenizeWithOffsets host text)
  = spell (List.filter (isWordChar host) (codePoints text)).
Proof. unfold tokenizeWithOffsets. by rewrite tokensFrom_words. Qed.

(** ** Suggestions *)

Lemma matchByType_contains_named (host : Host) (d : Doc) (q : JSString) :
  matchByType host (orEmpty (fileName d)) q Contains = true ->
  exists name,
    fileName d = Some name /\ name <> []
    /\ includes (toLowerCase host name) (toLowerCase host q) = true.
Proof.
  intros Hm. pose proof (matchByType_contains_includes _ _ _ Hm) as Hi.
  assert (Hq : toLowerCase host q <> []).
  { revert Hm. unfold matchByType, normalize.
    by destruct (toLowerCase host q). }
  destruct (fileName d) as [name|]; simpl in *.
  - exists name. split; [done|]. split; [|done]. intros ->.
    rewrite (toLowerCase_nil host) in Hi.
    apply includes_spec in Hi as (pre & post & E).
    destruct pre; [|done]. by destruct (toLowerCase host q).
  - rewrite (toLowerCase_nil host) in Hi.
    apply includes_spec in Hi as (pre & post & E).
    destruct pre; [|done]. by destruct (toLowerCase host q).
Qed.

(** X19. The suggestions are file names of the corpus: at most five, in the
    order of the corpus, each the name, present and not empty, of a record
    whose lower-cased name contains the lower-cased trimmed input. When
    fewer than five are returned, no record with a matching name is left
    out. *)
Theorem suggestions_are_matching_names (host : Host) (backend : Backend)
    (docs : list Doc) (partial : JSString) (out : list Suggestion) :
  fetchAllDocuments backend = Resolved docs ->
  getSearchSuggestions host backend partial = Resolved out ->
  (length out <= 5)%nat
  /\ exists picked,
       out = (fun d => {| suggestion := fileName d |}) <$> picked
       /\ picked `sublist_of` docs
       /\ Forall (fun d =>
                    exists name,
                      fileName d = Some name /\ name <> []
                      /\ includes (toLowerCase host name)
                            (toLowerCase host (trim partial)) = true)
            picked
       /\ ((length out < 5)%nat ->
           forall d,
             d ∈ docs ->
             matchByType host (orEmpty (fileName d)) (trim partial) Contains
               = true ->
             d ∈ picked).
Proof.
  intros Hdocs. unfold getSearchSuggestions.
  destruct (falsy (trim partial)) eqn:Ef.
  - intros H. apply Resolved_inj in H. subst out. split; [simpl; lia|].
    exists []. repeat split; try done.
    + apply sublist_nil_l.
    + intros _ d _ Hm. revert Hm. unfold matchByType.
      destruct (trim partial); [|done].
      by rewrite (proj2 (normalize_empty_iff host []) eq_refl).
  - rewrite Hdocs. intros H. apply Resolved_inj in H. subst out.
    rewrite length_fmap, length_take. unfold suggestionCap.
    split; [lia|]. eexists. split; [reflexivity|]. repeat split.
    + etrans; [apply sublist_take | apply bool_filter_sublist].
    + apply Forall_forall. intros d Hd. apply list_elem_of_In in Hd.
      pose proof (elem_of_submseteq _ _ _ Hd
                    (sublist_submseteq _ _ (sublist_take _ _))) as Hd'.
      apply elem_of_bool_filter in Hd' as [_ Hm].
      by apply matchByType_contains_named.
    + intros Hlt d Hd Hm. rewrite take_ge by lia.
      by apply elem_of_bool_filter.
Qed.

Lemma suggestions_are_matching_names_witness :
  exists out,
    getSearchSuggestions latinHost
      (offlineBlobs [namedDoc "xyz"; namedDoc "abc"]) (js " AB ")
    = Resolved out
    /\ (length out <= 5)%nat.
Proof.
  exists [ {| suggestion := Some (js "abc") |} ].
  split; [vm_compute; reflexivity|].
  destruct (suggestions_are_matching_names latinHost
              (offlineBlobs [namedDoc "xyz"; namedDoc "abc"])
              [namedDoc "xyz"; namedDoc "abc"] (js " AB ")
              [ {| suggestion := Some (js "abc") |} ]) as [H _].
  - reflexivity.
  - vm_compute. reflexivity.
  - exact H.
Defined.

(** X20. A blank input gives no suggestion without the corpus being read;
    the suggestions fail exactly when the trimmed input is not empty and the
    corpus cannot be fetched. Unlike the search, an input without a letter
    or a digit is looked up. *)
Theorem getSearchSuggestions_outcome (host : Host) (backend : Backend)
    (partial : JSString) :
  (trim partial = [] -> getSearchSuggestions host backend partial = Resolved [])
  /\ (getSearchSuggestions host backend partial = Rejected
      <-> trim partial <> [] /\ fetchAllDocuments backend = Rejected).
Proof.
  unfold getSearchSuggestions. destruct (trim partial) as [|c q]; simpl.
  - split; [done|]. split; [done | by intros []].
  - split; [done|]. destruct (fetchAllDocuments backend); split;
      (done || by intros []).
Qed.

(** ** The advanced search *)

Section AdvancedFacts.

Context (host : Host) (fuse : Ranker) (backend : Backend).
Context (fileExtension : Doc -> option JSString).

Lemma advancedSearch_found (o : SearchOptions) (hits : list Hit) :
  advancedSearch host fuse backend fileExtension o = Resolved hits ->
  exists found,
    (o_query o <> []
     /\ (exists results,
           searchDocuments host fuse backend (o_query o) (o_type o)
             (o_field o) = Resolved results
           /\ found = EnrichedHit <$> results)
     \/ o_query o = []
        /\ exists docs,
             fetchAllDocuments backend = Resolved docs
             /\ found = PlainHit <$> docs)
    /\ hits
       = take resultCap
           ((if negb (falsy (o_author o))
             then List.filter (authorFilter host (o_author o))
             else fun l => l)
              ((if negb (falsy (o_fileType o))
                then List.filter
                       (fileTypeFilter host fileExtension (o_fileType o))
                else fun l => l) found)).
Proof.
  unfold advancedSearch. destruct (o_query o) as [|c q] eqn:Eq; cbn [falsy negb].
  - destruct (fetchAllDocuments backend) as [docs|]; [|done].
    intros H. apply Resolved_inj in H. subst hits.
    exists (PlainHit <$> docs). split.
    + right. split; [done|]. by exists docs.
    + by destruct (falsy (o_author o)), (falsy (o_fileType o)).
  - destruct (searchDocuments _ _ _ _ _ _) as [results|]; [|done].
    intros H. apply Resolved_inj in H. subst hits.
    exists (EnrichedHit <$> results). split.
    + left. split; [done|]. by exists results.
    + by destruct (falsy (o_author o)), (falsy (o_fileType o)).
Qed.

End AdvancedFacts.

(** X21. The advanced search returns at most 100 hits, all of them results
    of the search for the query, or records of the corpus when the query is
    empty, in the same order. When an author is asked for, the lower-cased
    author of every hit contains the lower-cased author asked for, and when
    a file type is asked for, the lower-cased extension of every hit contains
    the lower-cased file type. *)
Theorem advancedSearch_hits (host : Host) (fuse : Ranker) (backend : Backend)
    (fileExtension : Doc -> option JSString) (o : SearchOptions)
    (hits : list Hit) :
  advancedSearch host fuse backend fileExtension o = Resolved hits ->
  (length hits <= 100)%nat
  /\ (exists found,
        hits `sublist_of` found
        /\ (o_query o <> []
            /\ (exists results,
                  searchDocuments host fuse backend (o_query o) (o_type o)
                    (o_field o) = Resolved results
                  /\ found = EnrichedHit <$> results)
            \/ o_query o = []
               /\ exists docs,
                    fetchAllDocuments backend = Resolved docs
                    /\ found = PlainHit <$> docs))
  /\ (o_author o <> [] ->
      forall h,
        h ∈ hits ->
        includes (normalize host (orEmpty (author (hitDoc h))))
          (normalize host (o_author o)) = true)
  /\ (o_fileType o <> [] ->
      forall h,
        h ∈ hits ->
        includes (toLowerCase host (orEmpty (fileExtension (hitDoc h))))
          (toLowerCase host (o_fileType o)) = true).
Proof.
  intros H.
  destruct (advancedSearch_found host fuse backend fileExtension o hits H)
    as (found & Hfound & ->).
  split; [rewrite length_take; unfold resultCap; lia|].
  split; [|split].
  - exists found. split; [|done].
    etrans; [apply sublist_take|].
    destruct (negb (falsy (o_author o)));
      [etrans; [apply bool_filter_sublist|]|];
      (destruct (negb (falsy (o_fileType o)));
        [apply bool_filter_sublist | done]).
  - intros Ha h Hh.
    pose proof (elem_of_submseteq _ _ _ Hh
                  (sublist_submseteq _ _ (sublist_take _ _))) as Hh'.
    destruct (o_author o) as [|c a]; [done|]. cbn [falsy negb] in Hh'.
    by apply elem_of_bool_filter in Hh' as [_ Hpass].
  - intros Ht h Hh.
    pose proof (elem_of_submseteq _ _ _ Hh
                  (sublist_submseteq _ _ (sublist_take _ _))) as Hh'.
    destruct (o_fileType o) as [|c ty]; [done|]. cbn [falsy negb] in Hh'.
    assert (Hin : h ∈ List.filter
                        (fileTypeFilter host fileExtension (c :: ty)) found).
    { destruct (negb (falsy (o_author o))); [|done].
      by apply elem_of_bool_filter in Hh' as [? _]. }
    by apply elem_of_bool_filter in Hin as [_ Hpass].
Qed.

Lemma advancedSearch_hits_witness :
  exists hits,
    advancedSearch latinHost (exactFuse latinHost)
      (offlineBlobs [namedDoc "abc"; namedDoc "xyz"])
      (fun _ => Some (js "PDF"))
      {| o_query := []; o_fileType := js "pdf"; o_author := [];
         o_type := Contains; o_field := FieldAll |}
    = Resolved hits
    /\ (length hits <= 100)%nat.
Proof.
  exists [PlainHit (namedDoc "abc"); PlainHit (namedDoc "xyz")].
  split; [vm_compute; reflexivity|].
  destruct (advancedSearch_hits latinHost (exactFuse latinHost)
              (offlineBlobs [namedDoc "abc"; namedDoc "xyz"])
              (fun _ => Some (js "PDF"))
              {| o_query := []; o_fileType := js "pdf"; o_author := [];
                 o_type := Contains; o_field := FieldAll |}
              [PlainHit (namedDoc "abc"); PlainHit (namedDoc "xyz")])
    as [H _].
  - vm_compute. reflexivity.
  - exact H.
Defined.

(** X22. The advanced search tells the empty query from the blank one. A
    query that is not empty and is rejected by the search, being only white
    space or holding no letter or digit, gives no hit whatever the filters
    are; the empty query with no filter lists the first 100 records of the
    corpus. *)
Theorem advancedSearch_blank_and_empty_query (host : Host) (fuse : Ranker)
    (backend : Backend) (fileExtension : Doc -> option JSString)
    (docs : list Doc) (o : SearchOptions) :
  fetchAllDocuments backend = Resolved docs ->
  (o_query o <> [] ->
   hasAlphaNum host (trim (o_query o)) = false ->
   advancedSearch host fuse backend fileExtension o = Resolved [])
  /\ (o_query o = [] -> o_fileType o = [] -> o_author o = [] ->
      advancedSearch host fuse backend fileExtension o
      = Resolved (PlainHit <$> take 100 docs)).
Proof.
  intros Hdocs. unfold advancedSearch. split.
  - intros Hq Ha. destruct (o_query o) as [|c q]; [done|]. cbn [falsy negb].
    unfold searchDocuments. rewrite Ha. simpl.
    destruct (falsy (trim (c :: q))); simpl;
      by destruct (falsy (o_author o)), (falsy (o_fileType o)).
  - intros -> -> ->. simpl. rewrite Hdocs. by rewrite fmap_take.
Qed.

Lemma advancedSearch_blank_and_empty_query_witness :
  advancedSearch latinHost (exactFuse latinHost)
    (offlineBlobs [namedDoc "abc"; namedDoc "xyz"]) (fun _ => None)
    {| o_query := js " "; o_fileType := []; o_author := [];
       o_type := Contains; o_field := FieldAll |}
  = Resolved [].
Proof.
  destruct (advancedSearch_blank_and_empty_query latinHost
              (exactFuse latinHost)
              (offlineBlobs [namedDoc "abc"; namedDoc "xyz"]) (fun _ => None)
              [namedDoc "abc"; namedDoc "xyz"]
              {| o_query := js " "; o_fileType := []; o_author := [];
                 o_type := Contains; o_field := FieldAll |}) as [H _].
  - reflexivity.
  - apply H; [discriminate | vm_compute; reflexivity].
Defined.

(** X23. A corpus that cannot be fetched fails the advanced search whenever
    the corpus is asked for: when the query is empty, and when its trimmed
    form has a letter or a digit. The filters do not hide the failure. *)
Theorem advancedSearch_propagates_fetch_failure (host : Host)
    (fuse : Ranker) (backend : Backend)
    (fileExtension : Doc -> option JSString) (o : SearchOptions) :
  fetchAllDocuments backend = Rejected ->
  o_query o = [] \/ hasAlphaNum host (trim (o_query o)) = true ->
  advancedSearch host fuse backend fileExtension o = Rejected.
Proof.
  intros Hf Hq. unfold advancedSearch.
  destruct (o_query o) as [|c q] eqn:Eq; cbn [falsy negb].
  - by rewrite Hf.
  - destruct Hq as [|Ha]; [done|].
    by rewrite (searchDocuments_fetch_failure host fuse backend _ _ _ Ha Hf).
Qed.

Lemma advancedSearch_propagates_fetch_failure_witness :
  advancedSearch latinHost (exactFuse latinHost) offlineStore
    (fun _ => None)
    {| o_query := js "ab"; o_fileType := js "pdf"; o_author := js "x";
       o_type := Contains; o_field := FieldAll |}
  = Rejected.
Proof.
  apply (advancedSearch_propagates_fetch_failure latinHost
           (exactFuse latinHost) offlineStore (fun _ => None)
           {| o_query := js "ab"; o_fileType := js "pdf"; o_author := js "x";
              o_type := Contains; o_field := FieldAll |}).
  - reflexivity.
  - right. vm_compute. reflexivity.
Defined.

(** ** The search form *)

Lemma NoDup_fmap_bool_filter {A B} (g : A -> B) (f : A -> bool)
    (l : list A) :
  NoDup (g <$> l) -> NoDup (g <$> List.filter f l).
Proof.
  induction l as [|x l IH]; simpl; [done|].
  intros H. apply list.NoDup_cons in H as [Hx Hl].
  destruct (f x); [|by apply IH].
  rewrite fmap_cons. apply list.NoDup_cons. split; [|by apply IH].
  intros Hin. apply Hx.
  apply list_elem_of_fmap in Hin as (y & -> & Hy).
  apply elem_of_bool_filter in Hy as [Hy _].
  by apply list_elem_of_fmap_2.
Qed.

Lemma bool_filter_other_query (q : JSString) (l : list RecentSearch) :
  List.filter (fun s => negb (bool_decide (rs_query s = q))) l
  = filter (fun s => rs_query s <> q) l.
Proof.
  induction l as [|x l IH]; [done|]. cbn [List.filter].
  rewrite filter_cons, IH.
  destruct (decide (rs_query x = q)) as [E|E].
  - rewrite (bool_decide_eq_true_2 _ E). cbn [negb].
    by destruct (decide (rs_query x <> q)).
  - rewrite (bool_decide_eq_false_2 _ E). cbn [negb].
    by destruct (decide (rs_query x <> q)).
Qed.

Lemma rememberSearch_facts (newSearch : RecentSearch)
    (prev : list RecentSearch) :
  (exists kept dropped,
     rememberSearch newSearch (rs_query newSearch) prev = newSearch :: kept
     /\ filter (fun s => rs_query s <> rs_query newSearch) prev
        = kept ++ dropped
     /\ (length kept <= 4)%nat
     /\ (dropped <> [] -> length kept = 4%nat))
  /\ (NoDup (rs_query <$> prev) ->
      NoDup (rs_query <$> rememberSearch newSearch (rs_query newSearch) prev)).
Proof.
  unfold rememberSearch, recentCap. split.
  - cbn [take]. rewrite bool_filter_other_query.
    set (others := filter (fun s => rs_query s <> rs_query newSearch) prev).
    exists (take 4 others), (drop 4 others).
    split; [done|]. split; [by rewrite take_drop|].
    split; [rewrite length_take; lia|].
    intros Hd. rewrite length_take.
    destruct (decide (length others <= 4)%nat) as [Hle|]; [|lia].
    by rewrite drop_ge in Hd.
  - intros Hnd. rewrite fmap_take.
    eapply sublist_NoDup; [|apply sublist_take].
    rewrite fmap_cons. apply list.NoDup_cons. split.
    + intros Hin. apply list_elem_of_fmap in Hin as (y & Ey & Hy).
      apply elem_of_bool_filter in Hy as [_ Hne].
      apply negb_true_iff, bool_decide_eq_false in Hne. done.
    + by apply NoDup_fmap_bool_filter.
Qed.

(** X24. Remembering a search puts the new search first and, after it, the
    earlier searches with a different query, in their order: the first four
    of them, and all of them when there are at most four. The searches with
    the query of the new one are taken out, and if no query was listed
    twice before, none is afterwards. *)
Theorem rememberSearch_keeps_recent_searches (newSearch : RecentSearch)
    (prev : list RecentSearch) :
  (exists kept dropped,
     rememberSearch newSearch (rs_query newSearch) prev = newSearch :: kept
     /\ filter (fun s => rs_query s <> rs_query newSearch) prev
        = kept ++ dropped
     /\ (length kept <= 4)%nat
     /\ (dropped <> [] -> length kept = 4%nat))
  /\ (NoDup (rs_query <$> prev) ->
      NoDup (rs_query <$> rememberSearch newSearch (rs_query newSearch) prev)).
Proof. apply rememberSearch_facts. Qed.

(** X25. What the search form shows and remembers. A blank query shows no
    result and leaves the recent searches as they were, and so does a search
    that fails. A search that resolves, for a query that is not blank, shows
    its results, at most 100, and is remembered first, under the query as
    typed, with the mode, the scope, the time and the number of results
    shown; after it come the earlier searches with a different query, the
    first four of them. *)
Theorem performSearch_outcome (host : Host) (fuse : Ranker)
    (backend : Backend) (now : Z) (searchQuery : JSString)
    (type : MatchType) (field : SearchField) (recent : list RecentSearch) :
  (trim searchQuery = [] ->
   performSearch host fuse backend now searchQuery type field recent
   = ([], recent))
  /\ (searchDocuments host fuse backend searchQuery type field = Rejected ->
      performSearch host fuse backend now searchQuery type field recent
      = ([], recent))
  /\ (forall results,
        trim searchQuery <> [] ->
        searchDocuments host fuse backend searchQuery type field
          = Resolved results ->
        (length results <= 100)%nat
        /\ exists kept dropped,
             performSearch host fuse backend now searchQuery type field recent
             = (results,
                {| rs_query := searchQuery; rs_type := type;
                   rs_field := field; rs_timestamp := now;
                   rs_resultCount := Z.of_nat (length results) |} :: kept)
             /\ filter (fun s => rs_query s <> searchQuery) recent
                = kept ++ dropped
             /\ (length kept <= 4)%nat
             /\ (dropped <> [] -> length kept = 4%nat)
             /\ (NoDup (rs_query <$> recent) ->
                 NoDup (searchQuery :: (rs_query <$> kept)))).
Proof.
  unfold performSearch. split; [|split].
  - by intros ->.
  - intros ->. by destruct (falsy (trim searchQuery)).
  - intros results Hq Hs. rewrite Hs.
    destruct (trim searchQuery) as [|c t]; [done|]. cbn [falsy].
    split; [apply (searchDocuments_length _ _ _ _ _ _ _ Hs)|].
    set (entry := {| rs_query := searchQuery; rs_type := type;
                     rs_field := field; rs_timestamp := now;
                     rs_resultCount := Z.of_nat (length results) |}).
    destruct (rememberSearch_facts entry recent)
      as ((kept & dropped & Ek & Hsplit & Hle & Hfull) & Hnd).
    change (rs_query entry) with searchQuery in *.
    exists kept, dropped. rewrite Ek. repeat split; try done.
    intros H. specialize (Hnd H). by rewrite Ek in Hnd.
Qed.

Lemma performSearch_outcome_witness :
  exists kept,
    performSearch latinHost (exactFuse latinHost)
      (offlineBlobs [namedDoc "xyz"; namedDoc "abc"]) 7 (js "ab") Contains
      FieldAll
      [ {| rs_query := js "ab"; rs_type := EndsWith; rs_field := FieldAll;
           rs_timestamp := 3; rs_resultCount := 0 |};
        {| rs_query := js "xy"; rs_type := Contains; rs_field := FieldAll;
           rs_timestamp := 2; rs_resultCount := 1 |} ]
    = ([enrich latinHost (js "ab") Contains (namedDoc "abc")],
       {| rs_query := js "ab"; rs_type := Contains; rs_field := FieldAll;
          rs_timestamp := 7; rs_resultCount := 1 |} :: kept).
Proof.
  destruct (performSearch_outcome latinHost (exactFuse latinHost)
              (offlineBlobs [namedDoc "xyz"; namedDoc "abc"]) 7 (js "ab")
              Contains FieldAll
              [ {| rs_query := js "ab"; rs_type := EndsWith;
                   rs_field := FieldAll; rs_timestamp := 3;
                   rs_resultCount := 0 |};
                {| rs_query := js "xy"; rs_type := Contains;
                   rs_field := FieldAll; rs_timestamp := 2;
                   rs_resultCount := 1 |} ]) as (_ & _ & H).
  destruct (H [enrich latinHost (js "ab") Contains (namedDoc "abc")])
    as (_ & kept & dropped & E & _).
  - vm_compute. discriminate.
  - vm_compute. reflexivity.
  - exists kept. exact E.
Defined.

(** ** Further facts of the pipeline *)

(** X26. On Basic Latin text every result of a search in the content
    carries its match: with an engine that returns only records it was
    given, a result whose content and query are Basic Latin has a snippet, a
    highlighted content and a match offset, and the offset lies inside the
    content. *)
Theorem content_results_carry_a_match (host : Host) (fuse : Ranker)
    (backend : Backend) (docs : list Doc) (searchQuery : JSString)
    (type : MatchType) (results : list SearchResult) (r : SearchResult) :
  (forall candidates q, fuse candidates q ⊆+ candidates) ->
  fetchAllDocuments backend = Resolved docs ->
  searchDocuments host fuse backend searchQuery type FieldContent
    = Resolved results ->
  r ∈ results ->
  Forall isBasicLatin (trim searchQuery) ->
  Forall isBasicLatin (orEmpty (textContent (sr_doc r))) ->
  is_Some (highlightedContent r)
  /\ is_Some (highlightedFullContent r)
  /\ exists idx,
       matchIndex r = Some idx
       /\ 0 <= idx
       /\ idx + len (trim searchQuery)
          <= len (orEmpty (textContent (sr_doc r))).
Proof.
  intros Hfuse Hdocs Hsearch Hr Hq.
  destruct (searchDocuments_sound host fuse backend docs _ _ _ _ _
              Hfuse Hdocs Hsearch Hr) as (d & Hd & -> & Hpass).
  rewrite sr_doc_enrich. intros Htext.
  destruct (locator_agrees_on_basicLatin host _ _ Htext Hq type)
    as [Hiff Hspan].
  cbn [isCandidate] in Hpass. apply Hiff in Hpass as [info Hinfo].
  unfold enrich. rewrite Hinfo.
  cbn [highlightedContent highlightedFullContent matchIndex].
  split; [by eexists|]. split; [by eexists|].
  exists (mi_index info). split; [done|]. by apply Hspan.
Qed.

Lemma content_results_carry_a_match_witness :
  let doc :=
    {| d_id := js "1"; fileName := Some (js "invoice_2023.pdf");
       author := None; title := None;
       textContent := Some (js "Payment due. Thank you for your business.");
       textContentStoragePath := None; pageCount := Some 3 |} in
  is_Some (highlightedContent (enrich latinHost (js "thank") StartsWith doc)).
Proof.
  intros doc.
  destruct (content_results_carry_a_match latinHost (exactFuse latinHost)
              (offlineBlobs [doc]) [doc] (js " thank ") StartsWith
              [enrich latinHost (js "thank") StartsWith doc]
              (enrich latinHost (js "thank") StartsWith doc)) as [H _].
  - intros candidates q. apply exactFuse_submseteq.
  - reflexivity.
  - vm_compute. reflexivity.
  - apply list_elem_of_In. left. reflexivity.
  - apply basicLatin_check. reflexivity.
  - apply basicLatin_check. reflexivity.
  - exact H.
Defined.

(** X27. A record without text, file name, author and title is never a
    candidate, whatever the query, the mode and the scope: the predicate is
    false on an empty text, and the locator finds nothing in it. *)
Theorem empty_record_is_never_a_candidate (host : Host) (q : JSString)
    (type : MatchType) (field : SearchField) (doc : Doc) :
  orEmpty (textContent doc) = [] -> orEmpty (fileName doc) = [] ->
  orEmpty (author doc) = [] -> orEmpty (title doc) = [] ->
  isCandidate host q type field doc = false
  /\ computeMatchInfo host (orEmpty (textContent doc)) q type = None.
Proof.
  intros Ht Hn Ha Hti. unfold isCandidate. rewrite Ht, Hn, Ha, Hti.
  rewrite !matchByType_empty_haystack. split; [by destruct field | done].
Qed.

Lemma empty_record_is_never_a_candidate_witness :
  isCandidate latinHost (js "a") EndsWith FieldAll
    {| d_id := js "1"; fileName := None; author := Some []; title := None;
       textContent := None; textContentStoragePath := None;
       pageCount := None |} = false.
Proof.
  destruct (empty_record_is_never_a_candidate latinHost (js "a") EndsWith
              FieldAll
              {| d_id := js "1"; fileName := None; author := Some [];
                 title := None; textContent := None;
                 textContentStoragePath := None; pageCount := None |})
    as [H _].
  - reflexivity.
  - reflexivity.
  - reflexivity.
  - reflexivity.
  - exact H.
Defined.

(** X28. [highlightRanges] only inserts markers when the ranges lie inside
    the text, one after the other: for a text that holds no marker of its
    own, deleting the markers from the rendered text gives the text back. *)
Theorem highlightRanges_keeps_text (text : JSString) (ranges : list Range) :
  includes text markOpen = false -> includes text markClose = false ->
  rangesInOrder 0 (len text) ranges ->
  stripMarkers (highlightRanges text ranges) = text.
Proof. apply highlightRanges_strip. Qed.

Lemma highlightRanges_keeps_text_witness :
  stripMarkers
    (highlightRanges (js "abcdef")
       [ {| r_start := 0; r_end := 2 |}; {| r_start := 3; r_end := 5 |} ])
  = js "abcdef".
Proof.
  apply (highlightRanges_keeps_text (js "abcdef")
           [ {| r_start := 0; r_end := 2 |}; {| r_start := 3; r_end := 5 |} ]).
  - vm_compute. reflexivity.
  - vm_compute. reflexivity.
  - simpl. unfold len. simpl. lia.
Defined.
